(** * jetpack: the pod lifecycle controller ([jetpack/pod.go])

    A shallow embedding of [pod.go] and the properties of its manifest
    store, jail configuration builder, mount resolver, status oracle and
    lifecycle controller.

    Go values are modelled as follows.
    - [string] is a Rocq [string] (a sequence of bytes), [int] is [Z].
    - [error] is the inductive [error]; a Go [error] result is an
      [option error] ([None] is [nil]).
    - A [panic] (and the fatal exit of [MustGetString]) is the [Panic]
      outcome of the monad [M]; it is distinct from a returned error.
    - The operating system (file system, external commands, the jail
      table, the dataset manager) is a [World] value threaded through
      every call, together with an [Env] of oracles that decides what
      the outside world answers, as a function of the calls made so far. *)

From Stdlib Require Import ZArith Ascii String List Sorting.Sorted.
From stdpp Require Import base option list gmap strings sorting pretty.

Local Open Scope Z_scope.
Local Open Scope string_scope.

(** ** Go library values *)

Definition nl : string := String "010"%char EmptyString.

(** [types.ACName] and [types.Hash] are handled by their text. *)
Abbreviation ACName := string (only parsing).
Abbreviation Hash := string (only parsing).

(** [PodStatus], an [iota] enumeration starting at [PodStatusInvalid]. *)
Inductive PodStatus :=
| PodStatusInvalid
| PodStatusRunning
| PodStatusDying
| PodStatusStopped.

Definition PodStatus_String (cs : PodStatus) : string :=
  match cs with
  | PodStatusInvalid => "invalid"
  | PodStatusRunning => "running"
  | PodStatusDying => "dying"
  | PodStatusStopped => "stopped"
  end.

(** Arguments of a formatted error, kept apart from the format. *)
Inductive fmt_arg :=
| VName (s : string)
| VNames (l : list string)
| VStatus (s : PodStatus).

Inductive error :=
| ErrNotFound                                   (* jetpack.ErrNotFound *)
| zfs_ErrNotFound                               (* zfs.ErrNotFound *)
| ErrNotExist                                   (* os.IsNotExist holds *)
| Foreign (msg : string)                        (* any other foreign error *)
| Errorf (format : string) (args : list fmt_arg) (* errors.Errorf, errors.New *)
| Trace (e : error).                            (* errors.Trace of a non-nil error *)

(** [errors.Trace] returns [nil] on [nil]. *)
Definition errors_Trace (err : option error) : option error :=
  match err with
  | None => None
  | Some e => Some (Trace e)
  end.

Definition os_IsNotExist (e : error) : bool :=
  match e with
  | ErrNotExist => true
  | _ => false
  end.

(** *** appc schema types *)

Record Annotation := { antn_Name : ACName; antn_Value : string }.

Record Volume := {
  vol_Name : ACName;
  vol_Kind : string;
  vol_Source : string;
  vol_ReadOnly : option bool            (* *bool *)
}.

Record Mount := { mnt_Volume : ACName; mnt_MountPoint : ACName }.

Record MountPoint := {
  mntp_Name : ACName;
  mntp_Path : string;
  mntp_ReadOnly : bool
}.

Record EnvironmentVariable := { env_Name : string; env_Value : string }.

Record App := {
  app_Exec : list string;
  app_User : string;
  app_Group : string;
  app_WorkingDirectory : string;
  app_Environment : list EnvironmentVariable;
  app_MountPoints : list MountPoint
}.

Record Label := { lbl_Name : ACName; lbl_Value : string }.

Record ImageManifest := {
  img_Name : ACName;
  img_Labels : list Label;
  img_App : option App                  (* *types.App, nil when absent *)
}.

Record RuntimeApp := {
  rta_Name : ACName;
  rta_Image : Hash;                     (* app.Image.ID *)
  rta_App : option App;
  rta_Mounts : list Mount
}.

Record Isolator := { iso_Name : ACName; iso_Value : string }.

Record PodManifest := {
  Apps : list RuntimeApp;
  Volumes : list Volume;
  Isolators : list Isolator;
  Annotations : list Annotation
}.

(** [Annotations.Get]: the value of the first annotation of that name. *)
Fixpoint Annotations_Get (a : list Annotation) (name : string) : option string :=
  match a with
  | [] => None
  | anno :: rest =>
      if String.eqb (antn_Name anno) name then Some (antn_Value anno)
      else Annotations_Get rest name
  end.

(** [Annotations.Set]: overwrite the first annotation of that name, or
    append a new one. *)
Fixpoint Annotations_Set (a : list Annotation) (name : ACName) (value : string)
  : list Annotation :=
  match a with
  | [] => [ {| antn_Name := name; antn_Value := value |} ]
  | anno :: rest =>
      if String.eqb (antn_Name anno) name
      then {| antn_Name := name; antn_Value := value |} :: rest
      else anno :: Annotations_Set rest name value
  end.

(** [ImageManifest.GetLabel]: the value of the first label of that name,
    the empty string when there is none. *)
Fixpoint GetLabel (labels : list Label) (name : string) : string * bool :=
  match labels with
  | [] => ("", false)
  | lbl :: rest =>
      if String.eqb (lbl_Name lbl) name then (lbl_Value lbl, true)
      else GetLabel rest name
  end.

(** *** Host *)

(** The host property store, [Host.Properties]. *)
Record Properties := {
  GetString : string → option string;
  GetBool : string → bool → bool
}.

(** [Host] is declared outside [pod.go]; [Host.Path] joins its
    arguments below the host's root and is taken as given. *)
Record Host := {
  Host_Path : list string → string;
  Host_Properties : Properties
}.

Record JailStatus := { Jid : Z; Dying : bool }.

(** Modelled from the spec: the declaration of [NoJailStatus] is not in
    [pod.go]. The spec describes the status of a jail that is not running
    as job id 0; the value is the zero [JailStatus], which is also what
    the status table answers for a name it does not hold. *)
Definition NoJailStatus : JailStatus := {| Jid := 0; Dying := false |}.

Definition JailStatus_eqb (a b : JailStatus) : bool :=
  Z.eqb (Jid a) (Jid b) && Bool.eqb (Dying a) (Dying b).

(** Modelled from the spec: [getJailStatus] and the jail table are
    declared outside [pod.go]. The spec gives job id 0 as "not running":
    the table holds jails, whose job id is not 0, and a name it does not
    hold is answered [NoJailStatus]. A status of the table thus has job
    id 0 only when it is [NoJailStatus]. *)
Definition table_status (st : JailStatus) : Prop :=
  Jid st = 0 → st = NoJailStatus.

Record Pod := {
  UUID : string;                        (* the text of UUID.String() *)
  PodHost : Host;
  Manifest : PodManifest;
  sealed : bool
}.

(** ** The outside world *)

Record Stat_t := { st_Mode : Z; st_Uid : Z; st_Gid : Z }.

Record Node := {
  n_dir : bool;                         (* directory or regular file *)
  n_data : string;                      (* content of a regular file *)
  n_stat : Stat_t
}.

(** Every call that leaves the process. *)
Inductive Call :=
| CReadFile (name : string)
| CWriteFile (name : string) (data : string) (perm : Z)
| CMkdirAll (name : string) (perm : Z)
| CStat (name : string)
| CChmod (name : string) (mode : Z)
| CChown (name : string) (uid gid : Z)
| CRemoveAll (name : string)
| CRun (argv : list string)
| CJailStatus (name : string) (refresh : bool)
| CGetDataset (name : string)
| CDatasetDestroy (name : string) (flags : list string)
| CSleep (ms : Z)
| CPrintf (format : string).

Record World := {
  nodes : gmap string Node;             (* the file system, by path *)
  calls : list Call                     (* calls issued so far, oldest first *)
}.

(** What the outside world answers. Oracles see the calls issued before
    the one they answer, so an answer may change over time. *)
Record Env := {
  fault : list Call → Call → option error;
  getJailStatus : list Call → string → bool → error + JailStatus;
  GetImageByHash : Hash → error + ImageManifest;
  Dataset_GetDataset : list Call → string → error + string;
  json_Marshal : PodManifest → error + string;
  json_Unmarshal : string → PodManifest → error + PodManifest;
  strconv_Quote : string → string;
  path_Join : list string → string;
  umask : Z;
  euid : Z;
  egid : Z
}.

(** An environment that refuses no call. *)
Definition no_faults (env : Env) : Prop := ∀ h c, fault env h c = None.

(** ** Outcomes and the state monad *)

Inductive PanicVal :=
| PStr (s : string)
| PErr (e : error).

Inductive Res (A : Type) :=
| Ret (a : A)
| Panic (v : PanicVal)
| OutOfFuel.
Arguments Ret {A} a.
Arguments Panic {A} v.
Arguments OutOfFuel {A}.

Definition M (S A : Type) : Type := S → Res A * S.

Definition ret {S A} (a : A) : M S A := fun s => (Ret a, s).

Definition bind {S A B} (m : M S A) (k : A → M S B) : M S B :=
  fun s =>
    match m s with
    | (Ret a, s') => k a s'
    | (Panic v, s') => (Panic v, s')
    | (OutOfFuel, s') => (OutOfFuel, s')
    end.

Definition panic {S A} (v : PanicVal) : M S A := fun s => (Panic v, s).

Notation "x <~ m ;; k" := (bind m (fun x => k))
  (at level 100, m at next level, right associativity).
Notation "m ;;; k" := (bind m (fun _ => k))
  (at level 100, right associativity).

(** A pure computation that may panic, run inside [M]. *)
Definition lift {S A} (r : Res A) : M S A := fun s => (r, s).

(** [Properties.MustGetString]: fatal when the key is absent. *)
Definition MustGetString (p : Properties) (key : string) : Res string :=
  match GetString p key with
  | Some v => Ret v
  | None => Panic (PStr ("unknown property: " ++ key))
  end.

(** ** Status derivation, on a queried status *)

(** The body of [Status] once the query has succeeded, with the value
    the status is compared with ([NoJailStatus] in the source). *)
Definition status_against (none status : JailStatus) : PodStatus :=
  if JailStatus_eqb status none then PodStatusStopped
  else if Dying status then PodStatusDying
  else PodStatusRunning.

Definition status_of (status : JailStatus) : PodStatus :=
  status_against NoJailStatus status.

(** A step either goes through or stops on a traced error. *)
Definition traced_or {A} (r : Res (error + A)) (a : A) : Prop :=
  (∃ e, r = Ret (inl (Trace e))) ∨ r = Ret (inr a).

(** ** State of a method call: the receiver and the world *)

Record State := { pod : Pod; world : World }.

Definition get_pod : M State Pod := fun s => (Ret (pod s), s).

Definition put_pod (c : Pod) : M State unit :=
  fun s => (Ret tt, {| pod := c; world := world s |}).

(** Run a computation on the outside world. *)
Definition os {A} (m : M World A) : M State A :=
  fun s =>
    let '(r, w) := m (world s) in
    (r, {| pod := pod s; world := w |}).

Definition set_sealed (c : Pod) (b : bool) : Pod :=
  {| UUID := UUID c; PodHost := PodHost c; Manifest := Manifest c; sealed := b |}.

Definition set_Manifest (c : Pod) (m : PodManifest) : Pod :=
  {| UUID := UUID c; PodHost := PodHost c; Manifest := m; sealed := sealed c |}.

Definition set_Annotations (m : PodManifest) (a : list Annotation) : PodManifest :=
  {| Apps := Apps m; Volumes := Volumes m; Isolators := Isolators m;
     Annotations := a |}.

(** Permission and file type bits. *)
Definition perm_0400 : Z := 256.
Definition perm_0600 : Z := 384.
Definition perm_0644 : Z := 420.
Definition perm_0700 : Z := 448.
Definition mask_07777 : Z := 4095.
Definition S_IFDIR : Z := 16384.
Definition S_IFREG : Z := 32768.

Section Jetpack.

Variable env : Env.

(** *** System calls

    A call is first recorded, then the environment may refuse it
    ([fault]); otherwise it acts on the file system. A refused call
    leaves the file system as it was. *)

Definition record (c : Call) (w : World) : World :=
  {| nodes := nodes w; calls := calls w ++ [c] |}.

Definition syscall {A} (c : Call)
    (act : gmap string Node → (error + A) * gmap string Node) : M World (error + A) :=
  fun w =>
    match fault env (calls w) c with
    | Some e => (Ret (inl e), record c w)
    | None =>
        let '(r, fs) := act (nodes w) in
        (Ret r, {| nodes := fs; calls := calls w ++ [c] |})
    end.

Definition as_error (r : error + unit) : option error :=
  match r with
  | inl e => Some e
  | inr _ => None
  end.

(** A call that answers only an [error]. *)
Definition syscall_ (c : Call)
    (act : gmap string Node → (error + unit) * gmap string Node)
  : M World (option error) :=
  r <~ syscall c act ;; ret (as_error r).

Definition created (dir : bool) (data : string) (perm : Z) : Node :=
  {| n_dir := dir; n_data := data;
     n_stat := {| st_Mode := Z.lor (if dir then S_IFDIR else S_IFREG)
                                   (Z.land perm (Z.lnot (umask env)));
                  st_Uid := euid env; st_Gid := egid env |} |}.

Definition ioutil_ReadFile (name : string) : M World (error + string) :=
  syscall (CReadFile name) (fun fs =>
    match fs !! name with
    | None => (inl ErrNotExist, fs)
    | Some n =>
        if n_dir n then (inl (Foreign "is a directory"), fs)
        else (inr (n_data n), fs)
    end).

(** [ioutil.WriteFile]. A write that fails is taken to leave the file
    as it was; the call itself may leave it created or truncated, which
    is not tracked. A new file gets [perm] less the umask; an existing
    one keeps its mode. *)
Definition ioutil_WriteFile (name data : string) (perm : Z) : M World (option error) :=
  syscall_ (CWriteFile name data perm) (fun fs =>
    match fs !! name with
    | None => (inr tt, <[name := created false data perm]> fs)
    | Some n =>
        if n_dir n then (inl (Foreign "is a directory"), fs)
        else (inr tt, <[name := {| n_dir := false; n_data := data;
                                   n_stat := n_stat n |}]> fs)
    end).

(** [os.MkdirAll]. Only the named directory is tracked: the parents
    that the call also creates when they are missing are not. *)
Definition os_MkdirAll (name : string) (perm : Z) : M World (option error) :=
  syscall_ (CMkdirAll name perm) (fun fs =>
    match fs !! name with
    | None => (inr tt, <[name := created true "" perm]> fs)
    | Some n =>
        if n_dir n then (inr tt, fs)
        else (inl (Foreign "not a directory"), fs)
    end).

Definition unix_Stat (name : string) : M World (error + Stat_t) :=
  syscall (CStat name) (fun fs =>
    match fs !! name with
    | None => (inl ErrNotExist, fs)
    | Some n => (inr (n_stat n), fs)
    end).

Definition with_stat (n : Node) (st : Stat_t) : Node :=
  {| n_dir := n_dir n; n_data := n_data n; n_stat := st |}.

Definition unix_Chmod (name : string) (mode : Z) : M World (option error) :=
  syscall_ (CChmod name mode) (fun fs =>
    match fs !! name with
    | None => (inl ErrNotExist, fs)
    | Some n =>
        let st := n_stat n in
        (inr tt, <[name := with_stat n
                     {| st_Mode := Z.lor (Z.land (st_Mode st) (Z.lnot mask_07777))
                                         (Z.land mode mask_07777);
                        st_Uid := st_Uid st; st_Gid := st_Gid st |}]> fs)
    end).

Definition unix_Chown (name : string) (uid gid : Z) : M World (option error) :=
  syscall_ (CChown name uid gid) (fun fs =>
    match fs !! name with
    | None => (inl ErrNotExist, fs)
    | Some n =>
        (inr tt, <[name := with_stat n
                     {| st_Mode := st_Mode (n_stat n);
                        st_Uid := uid; st_Gid := gid |}]> fs)
    end).

(** [name] itself, or a path below it. *)
Definition within (name path : string) : bool :=
  String.eqb name path || String.prefix (name ++ "/") path.

Definition os_RemoveAll (name : string) : M World (option error) :=
  syscall_ (CRemoveAll name) (fun fs =>
    (inr tt, filter (fun kv => within name (fst kv) = false) fs)).

(** Calls that do not act on the file system of the model: external
    commands, the dataset manager, the clock and standard output. *)
Definition external (c : Call) : M World (option error) :=
  syscall_ c (fun fs => (inr tt, fs)).

(** [Host.getJailStatus]. *)
Definition Host_getJailStatus (name : string) (refresh : bool)
  : M World (error + JailStatus) :=
  fun w => (Ret (getJailStatus env (calls w) name refresh),
            record (CJailStatus name refresh) w).

(** [Host.Dataset.GetDataset]. *)
Definition Host_GetDataset (name : string) : M World (error + string) :=
  fun w => (Ret (Dataset_GetDataset env (calls w) name),
            record (CGetDataset name) w).

(** What a successful write leaves at [name]. *)
Definition written (fs : gmap string Node) (name data : string) (perm : Z) : Node :=
  match fs !! name with
  | Some n => {| n_dir := false; n_data := data; n_stat := n_stat n |}
  | None => created false data perm
  end.

(** *** Paths and names *)

Definition Path (c : Pod) (elem : list string) : string :=
  Host_Path (PodHost c) ("pods" :: UUID c :: elem).

Definition jailName (c : Pod) : Res string :=
  match MustGetString (Host_Properties (PodHost c)) "jail.namePrefix" with
  | Ret prefix => Ret (prefix ++ UUID c)
  | Panic v => Panic v
  | OutOfFuel => OutOfFuel
  end.

(** *** Manifest store *)

Definition Save : M State (option error) :=
  c <~ get_pod ;;
  match json_Marshal env (Manifest c) with
  | inl err => ret (Some (Trace err))
  | inr manifestJSON =>
      err <~ os (ioutil_WriteFile (Path c ["manifest"]) manifestJSON perm_0400) ;;
      match err with
      | Some e => ret (Some (Trace e))
      | None => put_pod (set_sealed c true) ;;; ret None
      end
  end.

Definition Exists : M State bool :=
  c <~ get_pod ;;
  r <~ os (unix_Stat (Path c ["manifest"])) ;;
  match r with
  | inl err => if os_IsNotExist err then ret false else panic (PErr err)
  | inr _ => ret true
  end.

Definition readManifest : M State (option error) :=
  c <~ get_pod ;;
  r <~ os (ioutil_ReadFile (Path c ["manifest"])) ;;
  match r with
  | inl err => ret (Some (Trace err))
  | inr manifestJSON =>
      match json_Unmarshal env manifestJSON (Manifest c) with
      | inl err => ret (Some (Trace err))
      | inr m => put_pod (set_Manifest c m) ;;; ret None
      end
  end.

Definition Load : M State (option error) :=
  c <~ get_pod ;;
  if sealed c then panic (PStr "tried to load an already sealed pod")
  else
    found <~ Exists ;;
    if negb found then ret (Some ErrNotFound)
    else
      err <~ readManifest ;;
      match err with
      | Some e => ret (Some (Trace e))
      | None =>
          c <~ get_pod ;;
          if Nat.eqb (length (Apps (Manifest c))) 0
          then ret (Some (Errorf "No application set?" []))
          else if Nat.ltb 1 (length (Apps (Manifest c)))
          then ret (Some (Errorf "TODO: Multi-application pods are not supported" []))
          else if negb (Nat.eqb (length (Isolators (Manifest c))) 0)
          then ret (Some (Errorf "TODO: isolators are not supported" []))
          else put_pod (set_sealed c true) ;;; ret None
      end.

(** The error [Load] answers for a decoded manifest, [None] when it
    passes the three checks. *)
Definition Load_verdict (m : PodManifest) : option error :=
  if Nat.eqb (length (Apps m)) 0
  then Some (Errorf "No application set?" [])
  else if Nat.ltb 1 (length (Apps m))
  then Some (Errorf "TODO: Multi-application pods are not supported" [])
  else if negb (Nat.eqb (length (Isolators m)) 0)
  then Some (Errorf "TODO: isolators are not supported" [])
  else None.

(** The zero [schema.PodManifest]. *)
Definition zero_PodManifest : PodManifest :=
  {| Apps := []; Volumes := []; Isolators := []; Annotations := [] |}.

(** [LoadPod]: a fresh, unsealed pod is loaded; [id] is [None] for a
    [nil] UUID. *)
Definition LoadPod (h : Host) (id : option string) (w : World)
  : Res (error + Pod) * World :=
  match id with
  | None => (Panic (PStr "No UUID provided"), w)
  | Some u =>
      let c := {| UUID := u; PodHost := h; Manifest := zero_PodManifest;
                  sealed := false |} in
      match Load {| pod := c; world := w |} with
      | (Ret (Some err), s) => (Ret (inl (Trace err)), world s)
      | (Ret None, s) => (Ret (inr (pod s)), world s)
      | (Panic v, s) => (Panic v, world s)
      | (OutOfFuel, s) => (OutOfFuel, world s)
      end
  end.

(** *** Jail configuration builder *)

Definition Res_bind {A B} (r : Res A) (k : A → Res B) : Res B :=
  match r with
  | Ret a => k a
  | Panic v => Panic v
  | OutOfFuel => OutOfFuel
  end.

Definition conf_prefix : string := "jetpack/jail.conf/".

(** [s[n:]] *)
Fixpoint string_from (n : nat) (s : string) : string :=
  match n, s with
  | O, _ => s
  | S n', String _ s' => string_from n' s'
  | S _, EmptyString => EmptyString
  end.

(** [strings.Replace(s, old, new, -1)] for one-byte [old] and [new]. *)
Fixpoint strings_Replace1 (s : string) (old new : ascii) : string :=
  match s with
  | EmptyString => EmptyString
  | String a s' =>
      String (if Ascii.eqb a old then new else a) (strings_Replace1 s' old new)
  end.

Definition conf_key (name : ACName) : string :=
  strings_Replace1 (string_from (String.length conf_prefix) name) "-" "_".

(** The loop over the annotations: later annotations overwrite. *)
Definition annotation_parameters (annotations : list Annotation)
    (parameters : gmap string string) : gmap string string :=
  fold_left
    (fun parameters antn =>
       if String.prefix conf_prefix (antn_Name antn)
       then <[conf_key (antn_Name antn) := antn_Value antn]> parameters
       else parameters)
    annotations parameters.

(** What the loop leaves under [key], starting from [before]. *)
Definition last_override (key : string) (annotations : list Annotation)
    (before : option string) : option string :=
  fold_left
    (fun value antn =>
       if String.prefix conf_prefix (antn_Name antn)
          && String.eqb (conf_key (antn_Name antn)) key
       then Some (antn_Value antn)
       else value)
    annotations before.

Definition jailConf_parameters (c : Pod) : Res (gmap string string) :=
  Res_bind (MustGetString (Host_Properties (PodHost c)) "jail.interface")
    (fun interface =>
       let parameters : gmap string string :=
         <["persist" := "true"]>
           (<["path" := Path c ["rootfs"]]>
              (<["mount.devfs" := "true"]>
                 (<["interface" := interface]>
                    (<["host.hostuuid" := UUID c]>
                       (<["exec.clean" := "true"]>
                          (<["devfs_ruleset" := "4"]> ∅)))))) in
       let parameters :=
         match Annotations_Get (Annotations (Manifest c)) "hostname" with
         | Some hostname => <["host.hostname" := hostname]> parameters
         | None =>
             <["host.hostname" := default "" (parameters !! "host.hostuuid")]>
               parameters
         end in
       match Annotations_Get (Annotations (Manifest c)) "ip-address" with
       | Some ip =>
           Ret (annotation_parameters (Annotations (Manifest c))
                  (<["ip4.addr" := ip]> parameters))
       | None => Panic (PStr ("No IP address for pod " ++ UUID c))
       end).

(** One rendered line, ["  %v=%#v;"]: the value is quoted by
    [strconv.Quote]. *)
Definition render_line (kv : string * string) : string :=
  "  " ++ fst kv ++ "=" ++ strconv_Quote env (snd kv) ++ ";".

(** [sort.Strings]: ascending in the byte order of Go strings. *)
Definition sort_Strings (l : list string) : list string :=
  merge_sort String.le l.

(** The sorted lines. [range] is the order in which the runtime walks
    the parameter table, which Go leaves unspecified. *)
Definition jailConf_lines (range : gmap string string → list (string * string))
    (c : Pod) : Res (list string) :=
  Res_bind (jailConf_parameters c)
    (fun parameters => Ret (sort_Strings (map render_line (range parameters)))).

Definition jailConf_with (range : gmap string string → list (string * string))
    (c : Pod) : Res string :=
  Res_bind (jailConf_lines range c)
    (fun lines =>
       Res_bind (jailName c)
         (fun name =>
            Ret (strconv_Quote env name ++ " {" ++ nl
                 ++ String.concat nl lines ++ nl ++ "}" ++ nl))).

Definition jailConf (c : Pod) : Res string := jailConf_with map_to_list c.

(** *** Mount resolver *)

(** The first volume of that name, with its index. *)
Fixpoint find_volume (i : nat) (vols : list Volume) (name : ACName)
  : option (nat * Volume) :=
  match vols with
  | [] => None
  | cvol :: rest =>
      if String.eqb (vol_Name cvol) name then Some (i, cvol)
      else find_volume (S i) rest name
  end.

Fixpoint find_mountPoint (mps : list MountPoint) (name : ACName)
  : option MountPoint :=
  match mps with
  | [] => None
  | mntp :: rest =>
      if String.eqb (mntp_Name mntp) name then Some mntp
      else find_mountPoint rest name
  end.

Definition strconv_Itoa (n : nat) : string := pretty n.

(** The [vol.Kind == "empty"] branch: allocate the directory and copy
    ownership and mode from the mount point in the image, when it is
    there. Answers the host path. *)
Definition empty_volume (c : Pod) (volNo : nat) (podPath : string)
  : M World (error + string) :=
  let hostPath := Path c ["volumes"; strconv_Itoa volNo] in
  err <~ os_MkdirAll hostPath perm_0700 ;;
  match err with
  | Some e => ret (inl (Trace e))
  | None =>
      r <~ unix_Stat podPath ;;
      match r with
      | inl err =>
          if negb (os_IsNotExist err) then ret (inl (Trace err))
          else ret (inr hostPath)
      | inr st =>
          err <~ unix_Chmod hostPath (Z.land (st_Mode st) mask_07777) ;;
          match err with
          | Some e => ret (inl (Trace e))
          | None =>
              err <~ unix_Chown hostPath (st_Uid st) (st_Gid st) ;;
              match err with
              | Some e => ret (inl (Trace e))
              | None => ret (inr hostPath)
              end
          end
      end
  end.

Definition mount_opts (vol : Volume) (mntPoint : MountPoint) : string :=
  if from_option id false (vol_ReadOnly vol) || mntp_ReadOnly mntPoint
  then "ro" else "rw".

Definition fstab_line (hostPath podPath opts : string) : string :=
  hostPath ++ " " ++ podPath ++ " nullfs " ++ opts ++ " 0 0" ++ nl.

(** The body of the loop over [app.Mounts], for one binding: an error,
    or the line to append. *)
Definition mount_one (c : Pod) (imgApp : App) (mnt : Mount)
  : M World (error + string) :=
  match find_volume 0 (Volumes (Manifest c)) (mnt_Volume mnt) with
  | None => ret (inl (Errorf "Volume not found: %v" [VName (mnt_Volume mnt)]))
  | Some (volNo, vol) =>
      match find_mountPoint (app_MountPoints imgApp) (mnt_MountPoint mnt) with
      | None =>
          ret (inl (Errorf "No mount point found: %v" [VName (mnt_MountPoint mnt)]))
      | Some mntPoint =>
          let podPath := Path c ["rootfs"; mntp_Path mntPoint] in
          r <~ (if String.eqb (vol_Kind vol) "empty"
                then empty_volume c volNo podPath
                else ret (inr (vol_Source vol))) ;;
          match r with
          | inl e => ret (inl e)
          | inr hostPath =>
              ret (inr (fstab_line hostPath podPath (mount_opts vol mntPoint)))
          end
      end
  end.

Fixpoint mounts_loop (c : Pod) (imgApp : App) (mounts : list Mount)
    (fulfilledMountPoints : gmap string bool) (fstab : list string)
  : M World (error + gmap string bool * list string) :=
  match mounts with
  | [] => ret (inr (fulfilledMountPoints, fstab))
  | mnt :: rest =>
      r <~ mount_one c imgApp mnt ;;
      match r with
      | inl e => ret (inl e)
      | inr line =>
          mounts_loop c imgApp rest
            (<[mnt_MountPoint mnt := true]> fulfilledMountPoints)
            (fstab ++ [line])%list
      end
  end.

(** The mount points whose entry in the map is not [true]. *)
Definition unfulfilled_of (fulfilledMountPoints : gmap string bool)
    (mps : list MountPoint) : list ACName :=
  map mntp_Name
    (List.filter
       (fun mntp => negb (default false (fulfilledMountPoints !! mntp_Name mntp)))
       mps).

Definition linux_lines (c : Pod) : list string :=
  [ "linsys " ++ Path c ["rootfs"; "sys"] ++ " linsysfs  rw 0 0" ++ nl;
    "linproc " ++ Path c ["rootfs"; "proc"] ++ " linprocfs rw 0 0" ++ nl ].

(** The loop over [c.Manifest.Apps]: an error, or the mount table. *)
Fixpoint apps_loop (c : Pod) (apps : list RuntimeApp) (fstab : list string)
  : M World (error + list string) :=
  match apps with
  | [] => ret (inr fstab)
  | app :: rest =>
      match GetImageByHash env (rta_Image app) with
      | inl err => ret (inl (Trace err))
      | inr img =>
          let fstab :=
            if String.eqb (fst (GetLabel (img_Labels img) "os")) "linux"
            then (fstab ++ linux_lines c)%list else fstab in
          r <~ ioutil_ReadFile "/etc/resolv.conf" ;;
          match r with
          | inl err => ret (inl (Trace err))
          | inr bb =>
              err <~ ioutil_WriteFile (Path c ["rootfs/etc/resolv.conf"]) bb perm_0644 ;;
              match err with
              | Some e => ret (inl (Trace e))
              | None =>
                  match img_App img with
                  | None => apps_loop c rest fstab
                  | Some imgApp =>
                      r <~ mounts_loop c imgApp (rta_Mounts app) ∅ fstab ;;
                      match r with
                      | inl e => ret (inl e)
                      | inr (fulfilledMountPoints, fstab) =>
                          let unfulfilled :=
                            unfulfilled_of fulfilledMountPoints (app_MountPoints imgApp) in
                          if Nat.ltb 0 (length unfulfilled)
                          then ret (inl (Errorf "Unfulfilled mount points for %v: %v"
                                           [VName (img_Name img); VNames unfulfilled]))
                          else apps_loop c rest fstab
                      end
                  end
              end
          end
      end
  end.

(** *** What the resolver is expected to produce *)

(** The host side of a binding. *)
Definition host_path (c : Pod) (volNo : nat) (vol : Volume) : string :=
  if String.eqb (vol_Kind vol) "empty"
  then Path c ["volumes"; strconv_Itoa volNo]
  else vol_Source vol.

(** The line of one binding, when its volume and its mount point are
    found. *)
Definition binding_line (c : Pod) (imgApp : App) (mnt : Mount) : option string :=
  match find_volume 0 (Volumes (Manifest c)) (mnt_Volume mnt) with
  | None => None
  | Some (volNo, vol) =>
      match find_mountPoint (app_MountPoints imgApp) (mnt_MountPoint mnt) with
      | None => None
      | Some mntPoint =>
          Some (fstab_line (host_path c volNo vol)
                  (Path c ["rootfs"; mntp_Path mntPoint])
                  (mount_opts vol mntPoint))
      end
  end.

Definition bound (mounts : list Mount) (name : ACName) : bool :=
  existsb (String.eqb name) (map mnt_MountPoint mounts).

(** The mount points of the image that no binding names, in the order
    of their declaration. *)
Definition missing_mount_points (mounts : list Mount) (imgApp : App) : list ACName :=
  List.filter (fun name => negb (bound mounts name))
    (map mntp_Name (app_MountPoints imgApp)).

(** The two compatibility lines, for a linux image. *)
Definition compat_lines (c : Pod) (img : ImageManifest) : list string :=
  if String.eqb (fst (GetLabel (img_Labels img) "os")) "linux"
  then linux_lines c else [].

(** The fulfilled map after the bindings [mounts]. *)
Definition fulfilled_after (mounts : list Mount) (fulfilled : gmap string bool)
  : gmap string bool :=
  fold_left (fun f mnt => <[mnt_MountPoint mnt := true]> f) mounts fulfilled.

(** Every binding names a volume of the manifest and a mount point of
    the application template of the image. *)
Definition bindings_resolve (c : Pod) (img : ImageManifest) (app : RuntimeApp) : Prop :=
  ∀ mnt, In mnt (rta_Mounts app) →
         ∃ imgApp, img_App img = Some imgApp ∧ is_Some (binding_line c imgApp mnt).

(** Every mount point the image declares is named by a binding. *)
Definition mount_points_satisfied (img : ImageManifest) (app : RuntimeApp) : Prop :=
  ∀ imgApp, img_App img = Some imgApp →
            missing_mount_points (rta_Mounts app) imgApp = [].

(** The lines of the bindings, in the order of [Mounts]. *)
Definition binding_lines (c : Pod) (img : ImageManifest) (app : RuntimeApp)
  : list string :=
  match img_App img with
  | Some imgApp => omap (binding_line c imgApp) (rta_Mounts app)
  | None => []
  end.

(** No allocated volume directory is in the way as a regular file. *)
Definition volume_dirs (c : Pod) (fs : gmap string Node) : Prop :=
  ∀ i n, fs !! Path c ["volumes"; strconv_Itoa i] = Some n → n_dir n = true.

(** The end of [prepJail]: write the mount table when it has lines and
    register it, then write the jail configuration. *)
Definition write_conf : M State (option error) :=
  c <~ get_pod ;;
  conf <~ lift (jailConf c) ;;
  err <~ os (ioutil_WriteFile (Path c ["jail.conf"]) conf perm_0400) ;;
  ret (errors_Trace err).

Definition prepJail : M State (option error) :=
  c <~ get_pod ;;
  if negb (Nat.eqb (length (Apps (Manifest c))) 1)
  then ret (Some (Errorf "FIXME: Only one-app pods are supported!" []))
  else
    r <~ os (apps_loop c (Apps (Manifest c)) []) ;;
    match r with
    | inl e => ret (Some e)
    | inr fstab =>
        if Nat.ltb 0 (length fstab)
        then
          let fstabPath := Path c ["fstab"] in
          err <~ os (ioutil_WriteFile fstabPath (String.concat "" fstab) perm_0600) ;;
          match err with
          | Some e => ret (Some (Trace e))
          | None =>
              put_pod (set_Manifest c
                         (set_Annotations (Manifest c)
                            (Annotations_Set (Annotations (Manifest c))
                               "jetpack/jail.conf/mount.fstab" fstabPath))) ;;;
              write_conf
          end
        else write_conf
    end.

(** *** Status oracle *)

Definition jailStatus (refresh : bool) : M State (error + JailStatus) :=
  c <~ get_pod ;;
  name <~ lift (jailName c) ;;
  os (Host_getJailStatus name refresh).

Definition Status : M State PodStatus :=
  r <~ jailStatus false ;;
  match r with
  | inl err => panic (PErr err)
  | inr status => ret (status_of status)
  end.

Definition Pod_Jid : M State Z :=
  r <~ jailStatus false ;;
  match r with
  | inl err => panic (PErr err)
  | inr status => ret (Jid status)
  end.

(** *** Lifecycle controller *)

Definition runJail (op : string) : M State (option error) :=
  err <~ prepJail ;;
  match err with
  | Some e => ret (Some e)
  | None =>
      c <~ get_pod ;;
      let verbosity :=
        if GetBool (Host_Properties (PodHost c)) "debug" false then "-v" else "-q" in
      name <~ lift (jailName c) ;;
      os (external (CRun ["jail"; "-f"; Path c ["jail.conf"]; verbosity; op; name]))
  end.

Definition out_of_fuel {S A} : M S A := fun s => (OutOfFuel, s).

(** [Kill]: every [goto retry] takes one unit of fuel. *)
Fixpoint Kill (fuel : nat) : M State (option error) :=
  match fuel with
  | O => out_of_fuel
  | S fuel' =>
      status <~ Status ;;
      match status with
      | PodStatusStopped => ret None
      | PodStatusRunning =>
          err <~ runJail "-r" ;;
          match err with
          | Some e => ret (Some (Trace e))
          | None => Kill fuel'
          end
      | PodStatusDying =>
          os (external (CPrintf ("Pod dying since %v, waiting..." ++ nl))) ;;;
          os (external (CSleep 2500)) ;;;
          Kill fuel'
      | PodStatusInvalid =>
          ret (Some (Errorf "Pod is %v, I am confused" [VStatus status]))
      end
  end.

Definition getDataset : M State (option string) :=
  c <~ get_pod ;;
  r <~ os (Host_GetDataset (path_Join env ["pods"; UUID c])) ;;
  match r with
  | inl zfs_ErrNotFound => ret None
  | inl err => panic (PErr err)
  | inr ds => ret (Some ds)
  end.

Definition Dataset_Destroy (ds : string) (flags : list string) : M State (option error) :=
  os (external (CDatasetDestroy ds flags)).

Definition remove_tree : M State (option error) :=
  c <~ get_pod ;;
  err <~ os (os_RemoveAll (Path c [])) ;;
  ret (errors_Trace err).

Definition destroy_dataset : M State (option error) :=
  ds <~ getDataset ;;
  match ds with
  | Some ds =>
      err <~ Dataset_Destroy ds ["-r"] ;;
      match err with
      | Some e => ret (Some (Trace e))
      | None => remove_tree
      end
  | None => remove_tree
  end.

Definition Destroy (fuel : nat) : M State (option error) :=
  jid <~ Pod_Jid ;;
  if negb (Z.eqb jid 0)
  then
    err <~ Kill fuel ;;
    match err with
    | Some e => ret (Some (Trace e))
    | None => destroy_dataset
    end
  else destroy_dataset.

End Jetpack.

(** ** Teardown calls *)

(** The calls that look up or destroy the dataset, or remove a
    directory tree. *)
Definition teardown (c : Call) : bool :=
  match c with
  | CGetDataset _ | CDatasetDestroy _ _ | CRemoveAll _ => true
  | _ => false
  end.

(** [w'] is [w] after more calls, none of them a teardown call. *)
Definition extends (w w' : World) : Prop :=
  ∃ delta, calls w' = (calls w ++ delta)%list
           ∧ Forall (fun c => teardown c = false) delta.

Definition quietW {A} (m : M World A) : Prop :=
  ∀ w r w', m w = (r, w') → extends w w'.

Definition quietS {A} (m : M State A) : Prop :=
  ∀ s r s', m s = (r, s') → extends (world s) (world s').

(** ** A concrete host, used to run the code on examples *)

Module Example.

Definition dq : string := String "034"%char EmptyString.

Definition trim_slash (s : string) : string :=
  match s with
  | String "/"%char rest => rest
  | _ => s
  end.

(** The host keeps its pods under [/jetpack]. *)
Definition join_path (elem : list string) : string :=
  "/jetpack/" ++ String.concat "/" (map trim_slash elem).

Definition props (key : string) : option string :=
  if String.eqb key "jail.interface" then Some "lo1"
  else if String.eqb key "jail.namePrefix" then Some "jetpack:"
  else None.

Definition host : Host :=
  {| Host_Path := join_path;
     Host_Properties := {| GetString := props; GetBool := fun _ def => def |} |}.

Definition uuid : string := "8a1f0c5e-0000-4000-8000-000000000001".

(** A stand-in for the JSON codec, which knows one manifest. *)
Definition encoding : string := "{}".

Definition decode (known : PodManifest) (data : string) (_ : PodManifest)
  : error + PodManifest :=
  if String.eqb data encoding then inr known else inl (Foreign "invalid character").

(** An environment: what is refused, the jail table, the image store,
    the dataset of the pod if it has one, the manifest the codec
    knows. *)
Definition make_env
    (refused : Call → option error)
    (jails : list Call → string → bool → error + JailStatus)
    (images : Hash → error + ImageManifest)
    (dataset : error + string)
    (known : PodManifest) : Env :=
  {| fault := fun _ c => refused c;
     getJailStatus := jails;
     GetImageByHash := images;
     Dataset_GetDataset := fun _ _ => dataset;
     json_Marshal := fun _ => inr encoding;
     json_Unmarshal := decode known;
     strconv_Quote := fun s => dq ++ s ++ dq;
     path_Join := String.concat "/";
     umask := 18;
     euid := 0;
     egid := 0 |}.

Definition nothing_refused : Call → option error := fun _ => None.

(** The [jail] command fails; every other call goes through. *)
Definition jail_fails : Call → option error :=
  fun c =>
    match c with
    | CRun _ => Some (Foreign "exit status 1")
    | _ => None
    end.

Definition no_images : Hash → error + ImageManifest := fun _ => inl ErrNotFound.

(** An environment that refuses no call. *)
Definition quiet_env
    (jails : list Call → string → bool → error + JailStatus)
    (images : Hash → error + ImageManifest) : Env :=
  make_env nothing_refused jails images (inl zfs_ErrNotFound) zero_PodManifest.

Definition pod_with (m : PodManifest) : Pod :=
  {| UUID := uuid; PodHost := host; Manifest := m; sealed := true |}.

Definition empty_world : World := {| nodes := ∅; calls := [] |}.

(** Jail tables: the pod's jail, with job id 7, is dying; the pod's
    jail runs with job id 7. *)
Definition jails_dying : list Call → string → bool → error + JailStatus :=
  fun _ _ _ => inr {| Jid := 7; Dying := true |}.

Definition jails_running : list Call → string → bool → error + JailStatus :=
  fun _ _ _ => inr {| Jid := 7; Dying := false |}.

(** *** Annotations *)

Definition ip_address : Annotation :=
  {| antn_Name := "ip-address"; antn_Value := "10.0.0.2" |}.

Definition ip4_addr_override : Annotation :=
  {| antn_Name := "jetpack/jail.conf/ip4.addr"; antn_Value := "192.168.0.66" |}.

Definition annotated (a : list Annotation) : PodManifest :=
  {| Apps := []; Volumes := []; Isolators := []; Annotations := a |}.

(** *** An image, volumes and bindings *)

Definition template (mps : list MountPoint) : App :=
  {| app_Exec := ["/bin/sh"]; app_User := "root"; app_Group := "wheel";
     app_WorkingDirectory := ""; app_Environment := []; app_MountPoints := mps |}.

Definition mp_data : MountPoint :=
  {| mntp_Name := "data"; mntp_Path := "/data"; mntp_ReadOnly := false |}.

Definition mp_config : MountPoint :=
  {| mntp_Name := "config"; mntp_Path := "/etc/app"; mntp_ReadOnly := true |}.

Definition image (os : string) (app : option App) : ImageManifest :=
  {| img_Name := "example.com/app";
     img_Labels := [ {| lbl_Name := "os"; lbl_Value := os |} ];
     img_App := app |}.

Definition image_id : Hash := "sha512-0123".

Definition store (img : ImageManifest) : Hash → error + ImageManifest :=
  fun h => if String.eqb h image_id then inr img else inl ErrNotFound.

Definition runtime_app (mounts : list Mount) : RuntimeApp :=
  {| rta_Name := "app"; rta_Image := image_id; rta_App := None; rta_Mounts := mounts |}.

Definition vol_data : Volume :=
  {| vol_Name := "data"; vol_Kind := "empty"; vol_Source := ""; vol_ReadOnly := None |}.

Definition vol_config : Volume :=
  {| vol_Name := "config"; vol_Kind := "host"; vol_Source := "/srv/config";
     vol_ReadOnly := None |}.

Definition bind_to (volume mountPoint : ACName) : Mount :=
  {| mnt_Volume := volume; mnt_MountPoint := mountPoint |}.

Definition manifest (apps : list RuntimeApp) (vols : list Volume) : PodManifest :=
  {| Apps := apps; Volumes := vols; Isolators := []; Annotations := [ip_address] |}.

(** *** Worlds *)

Definition file (data : string) : Node :=
  {| n_dir := false; n_data := data;
     n_stat := {| st_Mode := 33188; st_Uid := 0; st_Gid := 0 |} |}.

Definition directory (mode uid gid : Z) : Node :=
  {| n_dir := true; n_data := "";
     n_stat := {| st_Mode := Z.lor S_IFDIR mode; st_Uid := uid; st_Gid := gid |} |}.

Definition resolv_conf : string := "nameserver 10.0.0.1" ++ nl.

(** The host has a [resolv.conf]; the root file system of the pod has a
    [/data] directory owned by user 80. *)
Definition host_world : World :=
  {| nodes :=
       <["/jetpack/pods/8a1f0c5e-0000-4000-8000-000000000001/rootfs/data"
           := directory 488 80 80]>
         {[ "/etc/resolv.conf" := file resolv_conf ]};
     calls := [] |}.

(** *** Pods *)

(** Both mount points of a linux image are bound. *)
Definition linux_image : ImageManifest :=
  image "linux" (Some (template [mp_data; mp_config])).

Definition app_bound : RuntimeApp :=
  runtime_app [bind_to "config" "config"; bind_to "data" "data"].

Definition pod_bound : Pod :=
  pod_with (manifest [app_bound] [vol_data; vol_config]).

(** Only [data] is bound. *)
Definition freebsd_image : ImageManifest :=
  image "freebsd" (Some (template [mp_data; mp_config])).

Definition app_data_only : RuntimeApp := runtime_app [bind_to "data" "data"].

Definition pod_data_only : Pod :=
  pod_with (manifest [app_data_only] [vol_data]).

(** A binding names a volume the manifest does not have. *)
Definition app_unknown_volume : RuntimeApp := runtime_app [bind_to "scratch" "data"].

Definition pod_unknown_volume : Pod :=
  pod_with (manifest [app_unknown_volume] [vol_data]).

(** An image without an application template. *)
Definition bare_image : ImageManifest := image "freebsd" None.

Definition pod_bare : Pod := pod_with (manifest [runtime_app []] []).

(** A binding to an existing volume, on the image without a
    template. *)
Definition app_bare_bound : RuntimeApp := runtime_app [bind_to "data" "data"].

Definition pod_bare_bound : Pod :=
  pod_with (manifest [app_bare_bound] [vol_data]).

(** The jail runs until a [jail] command has been issued. *)
Definition is_run (c : Call) : bool :=
  match c with
  | CRun _ => true
  | _ => false
  end.

Definition jails_until_removed : list Call → string → bool → error + JailStatus :=
  fun issued _ _ =>
    if existsb is_run issued then inr NoJailStatus
    else inr {| Jid := 7; Dying := false |}.

Definition pod_dataset : string :=
  "zroot/jetpack/pods/8a1f0c5e-0000-4000-8000-000000000001".

(** *** Environments *)

Definition env_linux : Env := quiet_env jails_running (store linux_image).

Definition env_freebsd : Env := quiet_env jails_running (store freebsd_image).

Definition env_bare : Env := quiet_env jails_running (store bare_image).

Definition env_kill_fails : Env :=
  make_env jail_fails jails_running (store bare_image) (inr pod_dataset)
    zero_PodManifest.

Definition env_teardown : Env :=
  make_env nothing_refused jails_until_removed (store bare_image) (inr pod_dataset)
    zero_PodManifest.

Definition env_codec (known : PodManifest) : Env :=
  make_env nothing_refused jails_running no_images (inl zfs_ErrNotFound) known.

Definition pod_dir : string := "/jetpack/pods/8a1f0c5e-0000-4000-8000-000000000001".

(** The order in which a table is walked, reversed. *)
Definition backwards (m : gmap string string) : list (string * string) :=
  reverse (map_to_list m).

End Example.

(** ** The fixed part of the jail configuration *)

(** The parameters the builder sets before it walks the annotations,
    last set first. *)
Definition fixed_parameters (c : Pod) (interface ip : string) : list (string * string) :=
  [ ("ip4.addr", ip);
    ("host.hostname",
     default (UUID c) (Annotations_Get (Annotations (Manifest c)) "hostname"));
    ("persist", "true");
    ("path", Path c ["rootfs"]);
    ("mount.devfs", "true");
    ("interface", interface);
    ("host.hostuuid", UUID c);
    ("exec.clean", "true");
    ("devfs_ruleset", "4") ].

(** No annotation carries the reserved prefix. *)
Definition no_reserved (annotations : list Annotation) : Prop :=
  Forall (fun antn => String.prefix conf_prefix (antn_Name antn) = false) annotations.

(** ** The annotation that carries the mount table *)

Definition fstab_annotation : ACName := "jetpack/jail.conf/mount.fstab".

(** The pod once the path of its mount table is registered after its
    other annotations. *)
Definition with_fstab (c : Pod) : Pod :=
  set_Manifest c
    (set_Annotations (Manifest c)
       (Annotations (Manifest c)
        ++ [ {| antn_Name := fstab_annotation; antn_Value := Path c ["fstab"] |} ])%list).

(** The [jail] command that [runJail] issues. *)
Definition jail_command (c : Pod) (op name : string) : Call :=
  CRun [ "jail"; "-f"; Path c ["jail.conf"];
         if GetBool (Host_Properties (PodHost c)) "debug" false then "-v" else "-q";
         op; name ].

(** ** App launcher *)

(** [ConsoleApp] and [LibexecPath] are declared outside [pod.go] and
    are taken as given, as is [filepath.Join]. *)
Record Launcher := {
  ConsoleApp : string → App;
  LibexecPath : string;
  filepath_Join : list string → string
}.

(** [strconv.Itoa] on an [int]. *)
Definition strconv_Itoa_int (n : Z) : string := pretty n.

(** [AppList.Get]: the first application of that name. *)
Fixpoint AppList_Get (al : list RuntimeApp) (name : ACName) : option RuntimeApp :=
  match al with
  | [] => None
  | a :: rest =>
      if String.eqb name (rta_Name a) then Some a else AppList_Get rest name
  end.

(** The loop over [app.Environment]. *)
Definition setenv_args (vars : list EnvironmentVariable) (args : list string)
  : list string :=
  fold_left
    (fun args env_var =>
       (args ++ ["-setenv"; (env_Name env_var ++ "=" ++ env_Value env_var)%string])%list)
    vars args.

(** The arguments [Stage2] builds for the launcher. *)
Definition stage2_args (jid : Z) (name : ACName) (app : App) : list string :=
  let user := if String.eqb (app_User app) "" then "root" else app_User app in
  let args :=
    [ "-jid"; strconv_Itoa_int jid; "-user"; user; "-group"; app_Group app;
      "-name"; name ] in
  let args :=
    if negb (String.eqb (app_WorkingDirectory app) "")
    then (args ++ ["-cwd"; app_WorkingDirectory app])%list
    else args in
  let args := setenv_args (app_Environment app) args in
  (args ++ app_Exec app)%list.

Section AppLauncher.

Variable env : Env.
Variable launcher : Launcher.

(** The end of [Stage2], once the job id is known. *)
Definition launch (jid : Z) (name : ACName) (app : App) : M State (option error) :=
  os (external env
        (CRun (filepath_Join launcher [LibexecPath launcher; "stage2"]
               :: stage2_args jid name app))).

Definition Stage2 (name : ACName) (app : App) : M State (option error) :=
  jid <~ Pod_Jid env ;;
  if Z.eqb jid 0
  then
    err <~ runJail env "-c" ;;
    match errors_Trace err with
    | Some e => ret (Some (Trace e))
    | None =>
        jid <~ Pod_Jid env ;;
        if Z.eqb jid 0 then panic (PStr "Could not start jail")
        else launch jid name app
    end
  else launch jid name app.

Definition runRuntimeApp (rtapp : RuntimeApp) : M State (option error) :=
  match rta_App rtapp with
  | Some app => Stage2 (rta_Name rtapp) app
  | None =>
      match GetImageByHash env (rta_Image rtapp) with
      | inl err => ret (Some (Trace err))
      | inr img =>
          match img_App img with
          | Some app => Stage2 (rta_Name rtapp) app
          | None => Stage2 (rta_Name rtapp) (ConsoleApp launcher "root")
          end
      end
  end.

Definition RunApp (name : ACName) : M State (option error) :=
  c <~ get_pod ;;
  match AppList_Get (Apps (Manifest c)) name with
  | Some rta => runRuntimeApp rta
  | None => ret (Some ErrNotFound)
  end.

(** [RunNthApp]: an index below 0 passes the length test and makes the
    indexing panic. *)
Definition RunNthApp (idx : Z) : M State (option error) :=
  c <~ get_pod ;;
  if Z.leb (Z.of_nat (length (Apps (Manifest c)))) idx then ret (Some ErrNotFound)
  else if Z.ltb idx 0 then panic (PStr "runtime error: index out of range")
  else
    match nth_error (Apps (Manifest c)) (Z.to_nat idx) with
    | Some rta => runRuntimeApp rta
    | None => panic (PStr "runtime error: index out of range")
    end.

Definition Console (name : ACName) (user : string) : M State (option error) :=
  Stage2 name (ConsoleApp launcher user).

End AppLauncher.

(** ** More examples *)

Module Scenario.

Import Example.

(** A pod that has not been loaded yet. *)
Definition fresh_pod : Pod := set_sealed (pod_with zero_PodManifest) false.

(** The world after the manifest [m] has been saved in an empty one. *)
Definition saved_world (m : PodManifest) : World :=
  world (snd (Save (env_codec m) {| pod := pod_with m; world := empty_world |})).

(** A manifest [Load] accepts, and one it rejects. *)
Definition one_app : PodManifest := manifest [runtime_app []] [vol_data].

Definition no_app : PodManifest := annotated [ip_address].

(** Writes are refused; every other call goes through. *)
Definition read_only : Call → option error :=
  fun c =>
    match c with
    | CWriteFile _ _ _ => Some (Foreign "read-only file system")
    | _ => None
    end.

Definition env_read_only : Env :=
  make_env read_only jails_running no_images (inl zfs_ErrNotFound) zero_PodManifest.

Definition raw_sockets : Annotation :=
  {| antn_Name := "jetpack/jail.conf/allow.raw-sockets"; antn_Value := "true" |}.

Definition hostname_annotation : Annotation :=
  {| antn_Name := "hostname"; antn_Value := "web1" |}.

(** A binding names a mount point the image does not declare. *)
Definition pod_unknown_mount_point : Pod :=
  pod_with (manifest [runtime_app [bind_to "data" "logs"]] [vol_data]).

(** A pod whose only volume is a host directory. *)
Definition pod_host_volume : Pod :=
  pod_with (manifest [runtime_app [bind_to "config" "config"]] [vol_config]).

End Scenario.

(** * Properties *)

Section Properties.

Variable env : Env.

Lemma JailStatus_eqb_eq (a b : JailStatus) : JailStatus_eqb a b = true ↔ a = b.
Proof.
  destruct a as [ja da], b as [jb db]; unfold JailStatus_eqb; simpl.
  rewrite andb_true_iff, Z.eqb_eq, Bool.eqb_true_iff.
  split; [intros [-> ->]; reflexivity | intros [= -> ->]; auto].
Qed.

(** The derivation never answers [PodStatusInvalid]. *)
Lemma status_against_valid (none st : JailStatus) :
  status_against none st ≠ PodStatusInvalid.
Proof.
  unfold status_against.
  destruct (JailStatus_eqb st none), (Dying st); discriminate.
Qed.

Lemma status_of_cases (st : JailStatus) :
  status_of st =
    if Dying st then PodStatusDying
    else if Z.eqb (Jid st) 0 then PodStatusStopped
    else PodStatusRunning.
Proof.
  destruct st as [j d]. unfold status_of, status_against, JailStatus_eqb; simpl.
  destruct d, (Z.eqb j 0); reflexivity.
Qed.

(** The query made by [Status] and [Jid]. *)
Lemma jailStatus_run (s : State) (name : string) (refresh : bool) :
  jailName (pod s) = Ret name →
  jailStatus env refresh s =
    (Ret (getJailStatus env (calls (world s)) name refresh),
     {| pod := pod s; world := record (CJailStatus name refresh) (world s) |}).
Proof.
  intros Hn. unfold jailStatus, bind, get_pod, lift, os, Host_getJailStatus.
  rewrite Hn. reflexivity.
Qed.

(** [Status] on a query that succeeds. *)
Lemma Status_run (s : State) (name : string) (st : JailStatus) :
  jailName (pod s) = Ret name →
  getJailStatus env (calls (world s)) name false = inr st →
  Status env s =
    (Ret (status_of st),
     {| pod := pod s; world := record (CJailStatus name false) (world s) |}).
Proof.
  intros Hn Hq. unfold Status, bind.
  rewrite (jailStatus_run s name false Hn), Hq. reflexivity.
Qed.

(** C1. When the query succeeds, with a status of the jail table,
    [Status] answers [PodStatusStopped] for job id 0,
    [PodStatusRunning] for a job id that is not 0 with the dying flag
    clear, and [PodStatusDying] for a job id that is not 0 with the dying
    flag set. No other answer is possible: stopped is exactly job id 0,
    dying exactly a nonzero job id with the flag set, running exactly a
    nonzero job id with the flag clear. The pod is left as it was. *)
Theorem Status_derivation (s : State) (name : string) (st : JailStatus) :
  jailName (pod s) = Ret name →
  getJailStatus env (calls (world s)) name false = inr st →
  table_status st →
  ∃ status,
    Status env s =
      (Ret status,
       {| pod := pod s; world := record (CJailStatus name false) (world s) |})
    ∧ (Jid st = 0 → status = PodStatusStopped)
    ∧ (Jid st ≠ 0 → Dying st = false → status = PodStatusRunning)
    ∧ (Jid st ≠ 0 → Dying st = true → status = PodStatusDying)
    ∧ status ≠ PodStatusInvalid
    ∧ (status = PodStatusStopped ↔ Jid st = 0)
    ∧ (status = PodStatusDying ↔ Jid st ≠ 0 ∧ Dying st = true)
    ∧ (status = PodStatusRunning ↔ Jid st ≠ 0 ∧ Dying st = false).
Proof.
  intros Hn Hq Ht. exists (status_of st).
  split; [apply Status_run; assumption|].
  rewrite status_of_cases. destruct st as [j d]. unfold table_status in Ht. simpl in *.
  destruct (Z.eqb_spec j 0) as [->|Hj].
  - specialize (Ht eq_refl). injection Ht as ->.
    repeat split; try discriminate; try congruence; intros [H _]; congruence.
  - destruct d; repeat split; try discriminate; try congruence; auto;
      intros [_ H]; discriminate H.
Qed.

End Properties.

Section Builder.

Variable env : Env.

(** The value an annotation loop leaves under [key]: that of the last
    annotation with the reserved prefix whose suffix maps to [key], or
    what was there before. *)
Lemma annotation_parameters_lookup (annotations : list Annotation)
    (parameters : gmap string string) (key : string) :
  annotation_parameters annotations parameters !! key =
    last_override key annotations (parameters !! key).
Proof.
  unfold annotation_parameters, last_override.
  revert parameters. induction annotations as [|antn rest IH]; intros parameters.
  - reflexivity.
  - simpl. rewrite IH. f_equal.
    destruct (String.prefix conf_prefix (antn_Name antn)); simpl; [|reflexivity].
    rewrite lookup_insert. destruct (String.eqb_spec (conf_key (antn_Name antn)) key).
    + rewrite decide_True by assumption. reflexivity.
    + rewrite decide_False by assumption. reflexivity.
Qed.

Lemma MustGetString_not_OutOfFuel (p : Properties) (key : string) :
  MustGetString p key ≠ OutOfFuel.
Proof. unfold MustGetString. destruct (GetString p key); discriminate. Qed.

Lemma jailConf_parameters_ip (c : Pod) (ip : string) (parameters : gmap string string) :
  Annotations_Get (Annotations (Manifest c)) "ip-address" = Some ip →
  jailConf_parameters c = Ret parameters →
  parameters !! "ip4.addr" =
    last_override "ip4.addr" (Annotations (Manifest c)) (Some ip).
Proof.
  intros Hip. unfold jailConf_parameters, Res_bind.
  destruct (MustGetString _ _); try discriminate.
  rewrite Hip. intros [= <-].
  rewrite annotation_parameters_lookup, lookup_insert_eq. reflexivity.
Qed.

Lemma sort_Strings_Sorted (l : list string) : Sorted String.le (sort_Strings l).
Proof. apply (Sorted_merge_sort String.le). Qed.

Lemma sort_Strings_Permutation (l : list string) : sort_Strings l ≡ₚ l.
Proof. apply merge_sort_Permutation. Qed.

(** Sorting forgets the order of its input. *)
Lemma sort_Strings_order (l1 l2 : list string) :
  l1 ≡ₚ l2 → sort_Strings l1 = sort_Strings l2.
Proof.
  intros Hp. apply (Sorted_unique String.le); try apply sort_Strings_Sorted.
  rewrite !sort_Strings_Permutation. exact Hp.
Qed.

Lemma elem_of_sort_Strings (x : string) (l : list string) :
  x ∈ sort_Strings l ↔ x ∈ l.
Proof. rewrite sort_Strings_Permutation. reflexivity. Qed.

(** C5 (as amended). Without an [ip-address] annotation the builder
    panics, whatever the rest of the pod. With one, and when the host
    properties let the builder go through, the [ip4.addr] parameter is
    the value of the last annotation named [jetpack/jail.conf/ip4.addr]
    if there is one, and otherwise exactly the value of the (first)
    [ip-address] annotation; the rendered text then has the line
    [  ip4.addr=<quoted value>;]. *)
Theorem jailConf_ip_address (c : Pod)
    (range : gmap string string → list (string * string)) :
  (Annotations_Get (Annotations (Manifest c)) "ip-address" = None →
   ∃ v, jailConf_with env range c = Panic v)
  ∧ (∀ ip parameters,
       Annotations_Get (Annotations (Manifest c)) "ip-address" = Some ip →
       jailConf_parameters c = Ret parameters →
       parameters !! "ip4.addr" =
         last_override "ip4.addr" (Annotations (Manifest c)) (Some ip)
       ∧ (last_override "ip4.addr" (Annotations (Manifest c)) None = None →
          parameters !! "ip4.addr" = Some ip
          ∧ jailConf_lines env map_to_list c
            = Ret (sort_Strings (map (render_line env) (map_to_list parameters)))
          ∧ render_line env ("ip4.addr", ip)
            ∈ sort_Strings (map (render_line env) (map_to_list parameters)))).
Proof.
  split.
  - intros Hip. unfold jailConf_with, jailConf_lines, jailConf_parameters, Res_bind.
    pose proof (MustGetString_not_OutOfFuel (Host_Properties (PodHost c)) "jail.interface").
    destruct (MustGetString _ _) as [interface|v|]; [|eauto|congruence].
    rewrite Hip. eauto.
  - intros ip parameters Hip Hp.
    pose proof (jailConf_parameters_ip c ip parameters Hip Hp) as Hl.
    split; [exact Hl|]. intros Hno.
    assert (parameters !! "ip4.addr" = Some ip) as Hv.
    { rewrite Hl. unfold last_override in *.
      clear -Hno. revert Hno. generalize (Annotations (Manifest c)).
      intros l. rewrite <- (fold_left_rev_right _ l), <- (fold_left_rev_right _ l (Some ip)).
      induction (rev l) as [|a r IH]; simpl; [reflexivity|].
      destruct (_ && _); [discriminate|]. exact IH. }
    split; [exact Hv|]. split.
    + unfold jailConf_lines. rewrite Hp. reflexivity.
    + apply elem_of_sort_Strings, list_elem_of_In, in_map_iff.
      exists ("ip4.addr", ip). split; [reflexivity|].
      apply list_elem_of_In, elem_of_map_to_list. exact Hv.
Qed.

(** C7. The builder is deterministic: in whatever order the runtime
    walks the parameter table, on this call and on the next, the text is
    the same; when the builder goes through, the text is the quoted jail
    name and a block of the rendered lines, one per table entry, in
    ascending byte order. *)
Theorem jailConf_deterministic (c : Pod)
    (range1 range2 : gmap string string → list (string * string)) :
  (∀ m, range1 m ≡ₚ map_to_list m) →
  (∀ m, range2 m ≡ₚ map_to_list m) →
  jailConf_with env range1 c = jailConf_with env range2 c
  ∧ jailConf_with env range1 c = jailConf env c
  ∧ ∀ text, jailConf_with env range1 c = Ret text →
      ∃ name parameters lines,
        jailName c = Ret name
        ∧ jailConf_parameters c = Ret parameters
        ∧ text = strconv_Quote env name ++ " {" ++ nl
                 ++ String.concat nl lines ++ nl ++ "}" ++ nl
        ∧ Sorted String.le lines
        ∧ lines ≡ₚ map (render_line env) (map_to_list parameters).
Proof.
  intros H1 H2.
  assert (∀ range, (∀ m, range m ≡ₚ map_to_list m) →
                   jailConf_lines env range c = jailConf_lines env map_to_list c) as Hl.
  { intros range Hr. unfold jailConf_lines, Res_bind.
    destruct (jailConf_parameters c) as [parameters| |]; try reflexivity.
    f_equal. apply sort_Strings_order. rewrite (Hr parameters). reflexivity. }
  assert (∀ range, (∀ m, range m ≡ₚ map_to_list m) →
                   jailConf_with env range c = jailConf env c) as Hw.
  { intros range Hr. unfold jailConf, jailConf_with. rewrite (Hl range Hr). reflexivity. }
  split; [rewrite (Hw range1 H1), (Hw range2 H2); reflexivity|].
  split; [apply Hw, H1|].
  intros text. unfold jailConf_with, jailConf_lines, Res_bind.
  destruct (jailConf_parameters c) as [parameters| |]; try discriminate.
  destruct (jailName c) as [name| |]; try discriminate.
  intros [= <-]. exists name, parameters, (sort_Strings (map (render_line env) (range1 parameters))).
  repeat split.
  - apply sort_Strings_Sorted.
  - rewrite sort_Strings_Permutation, (H1 parameters). reflexivity.
Qed.

End Builder.

Section ManifestStore.

Variable env : Env.

(** *** Running one call *)

Lemma syscall_ok {A} (c : Call)
    (act : gmap string Node → (error + A) * gmap string Node) (w : World) :
  fault env (calls w) c = None →
  syscall env c act w =
    (Ret (fst (act (nodes w))),
     {| nodes := snd (act (nodes w)); calls := (calls w ++ [c])%list |}).
Proof. intros Hf. unfold syscall. rewrite Hf. destruct (act (nodes w)); reflexivity. Qed.

Lemma syscall_calls {A} (c : Call)
    (act : gmap string Node → (error + A) * gmap string Node) (w w' : World) r :
  syscall env c act w = (r, w') → calls w' = (calls w ++ [c])%list.
Proof.
  unfold syscall. destruct (fault env (calls w) c).
  - intros [= <- <-]. reflexivity.
  - destruct (act (nodes w)). intros [= <- <-]. reflexivity.
Qed.

Lemma syscall__calls (c : Call)
    (act : gmap string Node → (error + unit) * gmap string Node) (w w' : World) r :
  syscall_ env c act w = (r, w') → calls w' = (calls w ++ [c])%list.
Proof.
  unfold syscall_, bind, ret.
  destruct (syscall env c act w) as [[a|v|] w1] eqn:E; intros [= <- <-];
    eapply syscall_calls; eassumption.
Qed.

Lemma os_pod {A} (m : M World A) (s s' : State) r :
  os m s = (r, s') → pod s' = pod s.
Proof. unfold os. destruct (m (world s)). intros [= <- <-]. reflexivity. Qed.

Lemma os_run {A} (m : M World A) (c : Pod) (w w' : World) r :
  m w = (r, w') → os m {| pod := c; world := w |} = (r, {| pod := c; world := w' |}).
Proof. intros H. unfold os. simpl. rewrite H. reflexivity. Qed.

Lemma WriteFile_ok (name data : string) (perm : Z) (w : World) :
  fault env (calls w) (CWriteFile name data perm) = None →
  (∀ n, nodes w !! name = Some n → n_dir n = false) →
  ioutil_WriteFile env name data perm w =
    (Ret None,
     {| nodes := <[name := written env (nodes w) name data perm]> (nodes w);
        calls := (calls w ++ [CWriteFile name data perm])%list |}).
Proof.
  intros Hf Hd. unfold ioutil_WriteFile, syscall_, bind, ret, written.
  rewrite (syscall_ok _ _ _ Hf).
  destruct (nodes w !! name) as [n|] eqn:E; simpl; [|reflexivity].
  rewrite (Hd n eq_refl). reflexivity.
Qed.

Lemma Stat_present (name : string) (w : World) (n : Node) :
  fault env (calls w) (CStat name) = None →
  nodes w !! name = Some n →
  unix_Stat env name w = (Ret (inr (n_stat n)), record (CStat name) w).
Proof.
  intros Hf Hn. unfold unix_Stat. rewrite (syscall_ok _ _ _ Hf), Hn. reflexivity.
Qed.

Lemma ReadFile_present (name : string) (w : World) (n : Node) :
  fault env (calls w) (CReadFile name) = None →
  nodes w !! name = Some n → n_dir n = false →
  ioutil_ReadFile env name w = (Ret (inr (n_data n)), record (CReadFile name) w).
Proof.
  intros Hf Hn Hd. unfold ioutil_ReadFile. rewrite (syscall_ok _ _ _ Hf), Hn, Hd.
  reflexivity.
Qed.

(** *** [Save] *)

Lemma Save_ok (c : Pod) (w : World) (manifestJSON : string) :
  json_Marshal env (Manifest c) = inr manifestJSON →
  fault env (calls w) (CWriteFile (Path c ["manifest"]) manifestJSON perm_0400) = None →
  (∀ n, nodes w !! Path c ["manifest"] = Some n → n_dir n = false) →
  Save env {| pod := c; world := w |} =
    (Ret None,
     {| pod := set_sealed c true;
        world :=
          {| nodes := <[Path c ["manifest"] :=
                          written env (nodes w) (Path c ["manifest"]) manifestJSON perm_0400]>
                        (nodes w);
             calls := (calls w ++ [CWriteFile (Path c ["manifest"]) manifestJSON perm_0400])%list
          |} |}).
Proof.
  intros Hm Hf Hd. unfold Save, bind, get_pod. simpl. rewrite Hm.
  rewrite (os_run _ _ _ _ _ (WriteFile_ok _ _ _ _ Hf Hd)). reflexivity.
Qed.

(** *** [Load] *)

Lemma Exists_pod (s s' : State) r : Exists env s = (r, s') → pod s' = pod s.
Proof.
  unfold Exists, bind, get_pod.
  destruct (os _ s) as [[[err|st]|v|] s1] eqn:E; apply os_pod in E.
  - destruct (os_IsNotExist err); intros [= <- <-]; exact E.
  - intros [= <- <-]; exact E.
  - intros [= <- <-]; exact E.
  - intros [= <- <-]; exact E.
Qed.

Lemma readManifest_sealed (s s' : State) r :
  readManifest env s = (r, s') → sealed (pod s') = sealed (pod s).
Proof.
  unfold readManifest, bind, get_pod.
  destruct (os _ s) as [[[err|data]|v|] s1] eqn:E; apply os_pod in E.
  - intros [= <- <-]. rewrite E. reflexivity.
  - destruct (json_Unmarshal env data (Manifest (pod s))); intros [= <- <-].
    + rewrite E. reflexivity.
    + reflexivity.
  - intros [= <- <-]. rewrite E. reflexivity.
  - intros [= <- <-]. rewrite E. reflexivity.
Qed.

(** The checks of [Load] on a decoded manifest: the error it answers,
    if any. *)
Lemma Load_checks (s : State) :
  sealed (pod s) = false →
  ∀ s1 s2, Exists env s = (Ret true, s1) →
           readManifest env s1 = (Ret None, s2) →
           Load env s =
             match Load_verdict (Manifest (pod s2)) with
             | Some e => (Ret (Some e), s2)
             | None => (Ret None, {| pod := set_sealed (pod s2) true; world := world s2 |})
             end.
Proof.
  intros Hs s1 s2 He Hr. unfold Load, bind at 1, get_pod. rewrite Hs.
  unfold bind at 1. rewrite He. simpl. unfold bind at 1. rewrite Hr.
  unfold bind, get_pod, Load_verdict, ret, put_pod.
  destruct (Nat.eqb _ 0); [reflexivity|].
  destruct (Nat.ltb 1 _); [reflexivity|].
  destruct (Nat.eqb _ 0); reflexivity.
Qed.

Lemma Load_verdict_None (m : PodManifest) :
  Load_verdict m = None ↔ length (Apps m) = 1%nat ∧ Isolators m = [].
Proof.
  unfold Load_verdict.
  destruct (Nat.eqb_spec (length (Apps m)) 0); [split; [discriminate|lia]|].
  destruct (Nat.ltb_spec 1 (length (Apps m))); [split; [discriminate|lia]|].
  destruct (Isolators m) as [|i l]; simpl.
  - split; [intros _; split; [lia|reflexivity]|reflexivity].
  - split; [discriminate|intros [_ [=]]].
Qed.

(** C10. If [Load], called on an unsealed pod, answers an error or
    panics, for whatever reason, the pod is still unsealed afterwards.
    The pod is sealed only when [Load] answers [nil], and then its
    manifest has exactly one application and no isolator. *)
Theorem Load_seals_only_on_success (s s' : State) (r : Res (option error)) :
  sealed (pod s) = false →
  Load env s = (r, s') →
  match r with
  | Ret None =>
      sealed (pod s') = true
      ∧ length (Apps (Manifest (pod s'))) = 1%nat
      ∧ Isolators (Manifest (pod s')) = []
  | _ => sealed (pod s') = false
  end.
Proof.
  intros Hs. unfold Load, bind at 1, get_pod. rewrite Hs. unfold bind at 1.
  destruct (Exists env s) as [[found|v|] s1] eqn:He; pose proof (Exists_pod _ _ _ He) as Hp1.
  2,3: intros [= <- <-]; rewrite Hp1; exact Hs.
  destruct found; simpl.
  2: { intros [= <- <-]. rewrite Hp1; exact Hs. }
  unfold bind at 1.
  destruct (readManifest env s1) as [[[e|]|v|] s2] eqn:Hr;
    pose proof (readManifest_sealed _ _ _ Hr) as Hp2.
  1,3,4: intros [= <- <-]; rewrite Hp2, Hp1; exact Hs.
  unfold bind, get_pod, ret, put_pod.
  destruct (Nat.eqb_spec (length (Apps (Manifest (pod s2)))) 0).
  { intros [= <- <-]. rewrite Hp2, Hp1; exact Hs. }
  destruct (Nat.ltb_spec 1 (length (Apps (Manifest (pod s2))))).
  { intros [= <- <-]. rewrite Hp2, Hp1; exact Hs. }
  destruct (Nat.eqb_spec (length (Isolators (Manifest (pod s2)))) 0); simpl.
  - intros [= <- <-]. simpl. split; [reflexivity|]. split; [lia|].
    destruct (Isolators (Manifest (pod s2))); [reflexivity|discriminate].
  - intros [= <- <-]. rewrite Hp2, Hp1; exact Hs.
Qed.

Lemma Exists_present (c : Pod) (w : World) (n : Node) :
  fault env (calls w) (CStat (Path c ["manifest"])) = None →
  nodes w !! Path c ["manifest"] = Some n →
  Exists env {| pod := c; world := w |} =
    (Ret true, {| pod := c; world := record (CStat (Path c ["manifest"])) w |}).
Proof.
  intros Hf Hn. unfold Exists, bind, get_pod. simpl.
  rewrite (os_run _ _ _ _ _ (Stat_present _ _ _ Hf Hn)). reflexivity.
Qed.

Lemma readManifest_present (c : Pod) (w : World) (n : Node) (m : PodManifest) :
  fault env (calls w) (CReadFile (Path c ["manifest"])) = None →
  nodes w !! Path c ["manifest"] = Some n → n_dir n = false →
  json_Unmarshal env (n_data n) (Manifest c) = inr m →
  readManifest env {| pod := c; world := w |} =
    (Ret None,
     {| pod := set_Manifest c m; world := record (CReadFile (Path c ["manifest"])) w |}).
Proof.
  intros Hf Hn Hd Hu. unfold readManifest, bind, get_pod. simpl.
  rewrite (os_run _ _ _ _ _ (ReadFile_present _ _ _ Hf Hn Hd)), Hu. reflexivity.
Qed.

(** [Load] on a pod whose manifest file is there and decodes to [m]. *)
Lemma Load_present (c : Pod) (w : World) (n : Node) (m : PodManifest) :
  sealed c = false →
  fault env (calls w) (CStat (Path c ["manifest"])) = None →
  fault env (calls w ++ [CStat (Path c ["manifest"])])%list
    (CReadFile (Path c ["manifest"])) = None →
  nodes w !! Path c ["manifest"] = Some n → n_dir n = false →
  json_Unmarshal env (n_data n) (Manifest c) = inr m →
  let w' := record (CReadFile (Path c ["manifest"]))
              (record (CStat (Path c ["manifest"])) w) in
  Load env {| pod := c; world := w |} =
    match Load_verdict m with
    | Some e => (Ret (Some e), {| pod := set_Manifest c m; world := w' |})
    | None =>
        (Ret None, {| pod := set_sealed (set_Manifest c m) true; world := w' |})
    end.
Proof.
  intros Hs Hf1 Hf2 Hn Hd Hu w'.
  rewrite (Load_checks {| pod := c; world := w |} Hs _ _
             (Exists_present c w n Hf1 Hn)
             (readManifest_present c (record (CStat (Path c ["manifest"])) w) n m
                Hf2 Hn Hd Hu)).
  reflexivity.
Qed.

(** C9. [Save] looks at nothing in the manifest: whenever the manifest
    encodes and the file can be written, it writes the encoding, seals
    the pod and answers [nil], whatever the number of applications and
    isolators. [Load], once it has found and decoded a manifest,
    answers [nil] exactly when the manifest has one application and no
    isolator, and a validation error otherwise. *)
Theorem Save_does_not_validate (c : Pod) (w : World) (manifestJSON : string) :
  json_Marshal env (Manifest c) = inr manifestJSON →
  fault env (calls w) (CWriteFile (Path c ["manifest"]) manifestJSON perm_0400) = None →
  (∀ n, nodes w !! Path c ["manifest"] = Some n → n_dir n = false) →
  (∃ s', Save env {| pod := c; world := w |} = (Ret None, s')
         ∧ sealed (pod s') = true
         ∧ Manifest (pod s') = Manifest c
         ∧ n_data <$> nodes (world s') !! Path c ["manifest"] = Some manifestJSON
         ∧ n_dir <$> nodes (world s') !! Path c ["manifest"] = Some false)
  ∧ (∀ s s1 s2,
       sealed (pod s) = false →
       Exists env s = (Ret true, s1) →
       readManifest env s1 = (Ret None, s2) →
       let m := Manifest (pod s2) in
       (length (Apps m) = 1%nat ∧ Isolators m = [] → fst (Load env s) = Ret None)
       ∧ (length (Apps m) = 0%nat →
          fst (Load env s) = Ret (Some (Errorf "No application set?" [])))
       ∧ ((1 < length (Apps m))%nat →
          fst (Load env s)
          = Ret (Some (Errorf "TODO: Multi-application pods are not supported" [])))
       ∧ (length (Apps m) = 1%nat → Isolators m ≠ [] →
          fst (Load env s) = Ret (Some (Errorf "TODO: isolators are not supported" [])))).
Proof.
  intros Hm Hf Hd. split.
  - eexists. split; [apply (Save_ok c w manifestJSON Hm Hf Hd)|]. simpl.
    rewrite lookup_insert_eq. unfold written. repeat split.
    + destruct (nodes w !! Path c ["manifest"]); reflexivity.
    + destruct (nodes w !! Path c ["manifest"]); reflexivity.
  - intros s s1 s2 Hs He Hr m. rewrite (Load_checks s Hs s1 s2 He Hr). fold m.
    unfold Load_verdict. repeat split.
    + intros [Ha Hi]. rewrite Ha, Hi. reflexivity.
    + intros Ha. rewrite Ha. reflexivity.
    + intros Ha. destruct (Nat.eqb_spec (length (Apps m)) 0); [lia|].
      destruct (Nat.ltb_spec 1 (length (Apps m))); [reflexivity|lia].
    + intros Ha Hi. rewrite Ha. simpl. destruct (Isolators m); [congruence|reflexivity].
Qed.

(** C8. Take a manifest that [Load] accepts (one application, no
    isolator), a pod directory with no manifest file yet, an
    environment that refuses no call and a JSON codec that decodes the
    encoding of this manifest to the manifest. Then [Save] answers
    [nil], and [LoadPod] for the same host and UUID, run next, answers a
    sealed pod whose manifest is the one saved. *)
Theorem Save_Load_roundtrip (c : Pod) (w : World) (manifestJSON : string) :
  no_faults env →
  length (Apps (Manifest c)) = 1%nat →
  Isolators (Manifest c) = [] →
  json_Marshal env (Manifest c) = inr manifestJSON →
  json_Unmarshal env manifestJSON zero_PodManifest = inr (Manifest c) →
  nodes w !! Path c ["manifest"] = None →
  ∃ s' w'',
    Save env {| pod := c; world := w |} = (Ret None, s')
    ∧ LoadPod env (PodHost c) (Some (UUID c)) (world s') =
        (Ret (inr {| UUID := UUID c; PodHost := PodHost c;
                     Manifest := Manifest c; sealed := true |}), w'').
Proof.
  intros Hq Ha Hi Hm Hu Hfresh.
  eexists. eexists. split.
  - apply (Save_ok c w manifestJSON Hm (Hq _ _)). intros n Hn. congruence.
  - unfold LoadPod. simpl.
    set (fresh := {| UUID := UUID c; PodHost := PodHost c;
                     Manifest := zero_PodManifest; sealed := false |}).
    set (w1 := {| nodes := _; calls := _ |}).
    assert (nodes w1 !! Path fresh ["manifest"]
            = Some (written env (nodes w) (Path c ["manifest"]) manifestJSON perm_0400))
      as Hn by apply lookup_insert_eq.
    rewrite (Load_present fresh w1 _ (Manifest c) eq_refl (Hq _ _) (Hq _ _) Hn).
    + assert (Load_verdict (Manifest c) = None) as -> by (apply Load_verdict_None; auto).
      reflexivity.
    + unfold written. rewrite Hfresh. reflexivity.
    + unfold written. rewrite Hfresh. exact Hu.
Qed.

End ManifestStore.

Section MountResolver.

Variable env : Env.

Lemma WriteFile_inv (name data : string) (perm : Z) (w w' : World) :
  ioutil_WriteFile env name data perm w = (Ret None, w') →
  w' = {| nodes := <[name := written env (nodes w) name data perm]> (nodes w);
          calls := (calls w ++ [CWriteFile name data perm])%list |}.
Proof.
  unfold ioutil_WriteFile, syscall_, bind, ret, syscall, written, record.
  destruct (fault env (calls w) _); [intros [=]|].
  destruct (nodes w !! name) as [n|]; [destruct (n_dir n)|]; simpl; intros [=]; subst;
    reflexivity.
Qed.

Lemma ReadFile_inv (name data : string) (w w' : World) :
  ioutil_ReadFile env name w = (Ret (inr data), w') →
  w' = record (CReadFile name) w
  ∧ ∃ n, nodes w !! name = Some n ∧ n_dir n = false ∧ n_data n = data.
Proof.
  unfold ioutil_ReadFile, syscall, record.
  destruct (fault env (calls w) _); [intros [=]|].
  destruct (nodes w !! name) as [n|]; [destruct (n_dir n) eqn:E|]; simpl; intros [=]; subst.
  split; [destruct w; reflexivity|]. eauto.
Qed.

(** *** One binding *)

Lemma empty_volume_inr (c : Pod) (volNo : nat) (podPath hostPath : string)
    (w w' : World) :
  empty_volume env c volNo podPath w = (Ret (inr hostPath), w') →
  hostPath = Path c ["volumes"; strconv_Itoa volNo].
Proof.
  unfold empty_volume, bind, ret.
  destruct (os_MkdirAll env _ _ w) as [[[e|]|v|] w1]; try (intros [=]; fail).
  destruct (unix_Stat env podPath w1) as [[[e|st]|v|] w2]; try (intros [=]; fail).
  - destruct (os_IsNotExist e); simpl; intros [=]; congruence.
  - destruct (unix_Chmod env _ _ w2) as [[[e|]|v|] w3]; try (intros [=]; fail).
    destruct (unix_Chown env _ _ _ w3) as [[[e|]|v|] w4]; intros [=]; congruence.
Qed.

Lemma mount_one_inr (c : Pod) (imgApp : App) (mnt : Mount) (line : string)
    (w w' : World) :
  mount_one env c imgApp mnt w = (Ret (inr line), w') →
  binding_line c imgApp mnt = Some line.
Proof.
  unfold mount_one, binding_line, host_path, bind, ret.
  destruct (find_volume 0 _ _) as [[volNo vol]|]; [|intros [=]].
  destruct (find_mountPoint _ _) as [mntPoint|]; [|intros [=]].
  destruct (String.eqb (vol_Kind vol) "empty").
  - destruct (empty_volume env c volNo _ w) as [[[e|hostPath]|v|] w1] eqn:E;
      try (intros [=]; fail).
    apply empty_volume_inr in E. intros [= <- <-]. rewrite E. reflexivity.
  - intros [= <- <-]. reflexivity.
Qed.

(** A binding whose volume is not in [Volumes] is refused before any
    call is made. *)
Lemma mount_one_unknown_volume (c : Pod) (imgApp : App) (mnt : Mount) (w : World) :
  find_volume 0 (Volumes (Manifest c)) (mnt_Volume mnt) = None →
  mount_one env c imgApp mnt w =
    (Ret (inl (Errorf "Volume not found: %v" [VName (mnt_Volume mnt)])), w).
Proof. intros H. unfold mount_one. rewrite H. reflexivity. Qed.

(** *** The loop over the bindings *)

Lemma mounts_loop_app (c : Pod) (imgApp : App) (pre rest : list Mount)
    (fulfilled : gmap string bool) (fstab : list string) (w : World) :
  mounts_loop env c imgApp (pre ++ rest) fulfilled fstab w =
    match mounts_loop env c imgApp pre fulfilled fstab w with
    | (Ret (inr (fulfilled', fstab')), w') =>
        mounts_loop env c imgApp rest fulfilled' fstab' w'
    | (Ret (inl e), w') => (Ret (inl e), w')
    | (Panic v, w') => (Panic v, w')
    | (OutOfFuel, w') => (OutOfFuel, w')
    end.
Proof.
  revert fulfilled fstab w. induction pre as [|mnt pre IH]; intros fulfilled fstab w.
  - reflexivity.
  - simpl. unfold bind.
    destruct (mount_one env c imgApp mnt w) as [[[e|line]|v|] w1]; try reflexivity.
    apply IH.
Qed.

Lemma mounts_loop_inr (c : Pod) (imgApp : App) (mounts : list Mount)
    (fulfilled fulfilled' : gmap string bool) (fstab fstab' : list string)
    (w w' : World) :
  mounts_loop env c imgApp mounts fulfilled fstab w
    = (Ret (inr (fulfilled', fstab')), w') →
  fulfilled' = fulfilled_after mounts fulfilled
  ∧ ∃ lines,
      fstab' = (fstab ++ lines)%list
      ∧ Forall2 (fun mnt line => binding_line c imgApp mnt = Some line) mounts lines.
Proof.
  revert fulfilled fstab w.
  induction mounts as [|mnt rest IH]; intros fulfilled fstab w; simpl.
  - unfold ret. intros [= <- <- <-]. split; [reflexivity|].
    exists []. rewrite app_nil_r. split; constructor.
  - unfold bind at 1.
    destruct (mount_one env c imgApp mnt w) as [[[e|line]|v|] w1] eqn:E;
      try (intros [=]; fail).
    intros H. apply IH in H as [-> [lines [-> HF]]].
    split; [reflexivity|]. exists (line :: lines).
    rewrite <- app_assoc. split; [reflexivity|].
    constructor; [|exact HF]. eapply mount_one_inr; eassumption.
Qed.

Lemma fulfilled_after_lookup (mounts : list Mount) (fulfilled : gmap string bool)
    (name : string) :
  default false (fulfilled_after mounts fulfilled !! name) =
    bound mounts name || default false (fulfilled !! name).
Proof.
  unfold fulfilled_after, bound.
  revert fulfilled. induction mounts as [|mnt rest IH]; intros fulfilled; simpl.
  - reflexivity.
  - rewrite IH, lookup_insert.
    destruct (String.eqb_spec name (mnt_MountPoint mnt)) as [->|Hne].
    + rewrite decide_True by reflexivity. simpl. rewrite orb_true_r. reflexivity.
    + rewrite decide_False by congruence. reflexivity.
Qed.

Lemma unfulfilled_of_after (mounts : list Mount) (imgApp : App) :
  unfulfilled_of (fulfilled_after mounts ∅) (app_MountPoints imgApp)
  = missing_mount_points mounts imgApp.
Proof.
  unfold unfulfilled_of, missing_mount_points.
  induction (app_MountPoints imgApp) as [|mntp rest IH]; simpl; [reflexivity|].
  rewrite fulfilled_after_lookup, lookup_empty. simpl. rewrite orb_false_r.
  destruct (bound mounts (mntp_Name mntp)); simpl; rewrite IH; reflexivity.
Qed.

(** Every name the error lists is a declared mount point that no
    binding names, and every such mount point is listed. *)
Lemma missing_mount_points_spec (mounts : list Mount) (imgApp : App) (name : ACName) :
  In name (missing_mount_points mounts imgApp)
  ↔ In name (map mntp_Name (app_MountPoints imgApp))
    ∧ ¬ In name (map mnt_MountPoint mounts).
Proof.
  unfold missing_mount_points, bound. rewrite filter_In, negb_true_iff.
  apply and_iff_compat_l. split.
  - intros Hb Hin. apply not_true_iff_false in Hb. apply Hb.
    apply existsb_exists. exists name. split; [exact Hin|apply String.eqb_refl].
  - intros Hn. apply not_true_iff_false. intros Hb. apply Hn.
    apply existsb_exists in Hb as [x [Hin Hx]]. apply String.eqb_eq in Hx. congruence.
Qed.

(** *** The loop over the applications, for the single application *)

Lemma apps_loop_template (c : Pod) (app : RuntimeApp) (img : ImageManifest)
    (imgApp : App) (bb : string) (w w1 w2 : World) :
  GetImageByHash env (rta_Image app) = inr img →
  img_App img = Some imgApp →
  ioutil_ReadFile env "/etc/resolv.conf" w = (Ret (inr bb), w1) →
  ioutil_WriteFile env (Path c ["rootfs/etc/resolv.conf"]) bb perm_0644 w1
    = (Ret None, w2) →
  apps_loop env c [app] [] w =
    match mounts_loop env c imgApp (rta_Mounts app) ∅ (compat_lines c img) w2 with
    | (Ret (inr (fulfilled, fstab)), w3) =>
        if Nat.ltb 0 (length (unfulfilled_of fulfilled (app_MountPoints imgApp)))
        then (Ret (inl (Errorf "Unfulfilled mount points for %v: %v"
                          [VName (img_Name img);
                           VNames (unfulfilled_of fulfilled (app_MountPoints imgApp))])),
              w3)
        else (Ret (inr fstab), w3)
    | (Ret (inl e), w3) => (Ret (inl e), w3)
    | (Panic v, w3) => (Panic v, w3)
    | (OutOfFuel, w3) => (OutOfFuel, w3)
    end.
Proof.
  intros Hi Ha Hr Hw. simpl. rewrite Hi. unfold bind at 1. rewrite Hr.
  unfold bind at 1. rewrite Hw, Ha. unfold bind, compat_lines. simpl.
  destruct (String.eqb _ "linux");
    destruct (mounts_loop _ _ _ _ _ _ _) as [[[e|[fulfilled fstab]]|v|] w3];
    try reflexivity;
    destruct (Nat.ltb 0 _); reflexivity.
Qed.

Lemma apps_loop_no_template (c : Pod) (app : RuntimeApp) (img : ImageManifest)
    (bb : string) (w w1 w2 : World) :
  GetImageByHash env (rta_Image app) = inr img →
  img_App img = None →
  ioutil_ReadFile env "/etc/resolv.conf" w = (Ret (inr bb), w1) →
  ioutil_WriteFile env (Path c ["rootfs/etc/resolv.conf"]) bb perm_0644 w1
    = (Ret None, w2) →
  apps_loop env c [app] [] w = (Ret (inr (compat_lines c img)), w2).
Proof.
  intros Hi Ha Hr Hw. simpl. rewrite Hi. unfold bind at 1. rewrite Hr.
  unfold bind at 1. rewrite Hw, Ha. unfold ret, compat_lines.
  destruct (String.eqb _ "linux"); reflexivity.
Qed.

Lemma prepJail_resolver_error (c : Pod) (app : RuntimeApp) (w w' : World) (e : error) :
  Apps (Manifest c) = [app] →
  apps_loop env c [app] [] w = (Ret (inl e), w') →
  prepJail env {| pod := c; world := w |} = (Ret (Some e), {| pod := c; world := w' |}).
Proof.
  intros Ha Hl. unfold prepJail, bind at 1, get_pod. simpl. rewrite Ha. simpl.
  unfold bind. rewrite (os_run _ _ _ _ _ Hl). reflexivity.
Qed.

(** C3. On a pod with one application whose image resolves and
    declares an application template, once the copy of [resolv.conf] and
    every binding have gone through, [prepJail] answers the error
    "Unfulfilled mount points" as soon as a declared mount point is
    named by no binding. The error carries the image name and the list
    of the missing mount points: every declared mount point that no
    binding names, and no other name. Neither the mount table nor the
    jail configuration is written. *)
Theorem unfulfilled_mount_points_fail (c : Pod) (app : RuntimeApp)
    (img : ImageManifest) (imgApp : App) (bb : string) (w w1 w2 w3 : World)
    (fulfilled : gmap string bool) (fstab : list string) :
  Apps (Manifest c) = [app] →
  GetImageByHash env (rta_Image app) = inr img →
  img_App img = Some imgApp →
  ioutil_ReadFile env "/etc/resolv.conf" w = (Ret (inr bb), w1) →
  ioutil_WriteFile env (Path c ["rootfs/etc/resolv.conf"]) bb perm_0644 w1
    = (Ret None, w2) →
  mounts_loop env c imgApp (rta_Mounts app) ∅ (compat_lines c img) w2
    = (Ret (inr (fulfilled, fstab)), w3) →
  missing_mount_points (rta_Mounts app) imgApp ≠ [] →
  prepJail env {| pod := c; world := w |} =
    (Ret (Some (Errorf "Unfulfilled mount points for %v: %v"
                  [VName (img_Name img);
                   VNames (missing_mount_points (rta_Mounts app) imgApp)])),
     {| pod := c; world := w3 |})
  ∧ ∀ name,
      In name (missing_mount_points (rta_Mounts app) imgApp)
      ↔ In name (map mntp_Name (app_MountPoints imgApp))
        ∧ ¬ In name (map mnt_MountPoint (rta_Mounts app)).
Proof.
  intros Ha Hi Ht Hr Hw Hl Hm. split; [|apply missing_mount_points_spec].
  apply (prepJail_resolver_error c app w w3 _ Ha).
  rewrite (apps_loop_template c app img imgApp bb w w1 w2 Hi Ht Hr Hw), Hl.
  destruct (mounts_loop_inr _ _ _ _ _ _ _ _ _ Hl) as [-> _].
  rewrite unfulfilled_of_after.
  destruct (missing_mount_points (rta_Mounts app) imgApp); [congruence|reflexivity].
Qed.

(** C4 (as amended). On a pod with one application whose image
    resolves and declares an application template, once
    [/etc/resolv.conf] has been copied into the pod's root file system
    and the bindings before it have gone through, a binding whose volume
    is not in [Volumes] makes [prepJail] answer the formatted error
    "Volume not found" (not [ErrNotFound]). That binding causes no call:
    the world is the one the earlier steps left, in which [resolv.conf]
    has been written; the pod is unchanged, and neither the mount table
    nor the jail configuration is written. *)
Theorem unknown_volume_fails (c : Pod) (app : RuntimeApp) (img : ImageManifest)
    (imgApp : App) (bb : string) (w w1 w2 w3 : World)
    (pre post : list Mount) (mnt : Mount)
    (fulfilled : gmap string bool) (fstab : list string) :
  Apps (Manifest c) = [app] →
  GetImageByHash env (rta_Image app) = inr img →
  img_App img = Some imgApp →
  ioutil_ReadFile env "/etc/resolv.conf" w = (Ret (inr bb), w1) →
  ioutil_WriteFile env (Path c ["rootfs/etc/resolv.conf"]) bb perm_0644 w1
    = (Ret None, w2) →
  rta_Mounts app = (pre ++ mnt :: post)%list →
  mounts_loop env c imgApp pre ∅ (compat_lines c img) w2
    = (Ret (inr (fulfilled, fstab)), w3) →
  find_volume 0 (Volumes (Manifest c)) (mnt_Volume mnt) = None →
  prepJail env {| pod := c; world := w |} =
    (Ret (Some (Errorf "Volume not found: %v" [VName (mnt_Volume mnt)])),
     {| pod := c; world := w3 |})
  ∧ w1 = record (CReadFile "/etc/resolv.conf") w
  ∧ w2 = {| nodes := <[Path c ["rootfs/etc/resolv.conf"] :=
                         written env (nodes w) (Path c ["rootfs/etc/resolv.conf"])
                           bb perm_0644]> (nodes w);
            calls := (calls w ++ [CReadFile "/etc/resolv.conf";
                                  CWriteFile (Path c ["rootfs/etc/resolv.conf"])
                                    bb perm_0644])%list |}
  ∧ (pre = [] → w3 = w2).
Proof.
  intros Ha Hi Ht Hr Hw Hm Hl Hv. repeat split.
  - apply (prepJail_resolver_error c app w w3 _ Ha).
    rewrite (apps_loop_template c app img imgApp bb w w1 w2 Hi Ht Hr Hw), Hm.
    rewrite mounts_loop_app, Hl. simpl. unfold bind.
    rewrite (mount_one_unknown_volume c imgApp mnt w3 Hv). reflexivity.
  - apply ReadFile_inv in Hr as [-> _]. reflexivity.
  - apply ReadFile_inv in Hr as [-> _]. apply WriteFile_inv in Hw as ->.
    simpl. rewrite <- app_assoc. reflexivity.
  - intros ->. simpl in Hl. unfold ret in Hl. congruence.
Qed.

(** *** The resolver on a well-formed pod *)

Lemma syscall_Ret {A} (c : Call)
    (act : gmap string Node → (error + A) * gmap string Node) (w w' : World) r :
  syscall env c act w = (r, w') → ∃ a, r = Ret a.
Proof.
  unfold syscall. destruct (fault env (calls w) c).
  - intros [= <- <-]. eauto.
  - destruct (act (nodes w)). intros [= <- <-]. eauto.
Qed.

Lemma syscall__Ret (c : Call)
    (act : gmap string Node → (error + unit) * gmap string Node) (w w' : World) r :
  syscall_ env c act w = (r, w') → ∃ a, r = Ret a.
Proof.
  unfold syscall_, bind, ret.
  destruct (syscall env c act w) as [[a|v|] w1] eqn:E.
  - intros [= <- <-]. eauto.
  - apply syscall_Ret in E as [? [=]].
  - apply syscall_Ret in E as [? [=]].
Qed.

Ltac no_panic E :=
  let H := fresh in
  first [ apply syscall__Ret in E as [? H] | apply syscall_Ret in E as [? H] ];
  discriminate H.

Lemma empty_volume_traced (c : Pod) (volNo : nat) (podPath : string) (w : World) :
  traced_or (fst (empty_volume env c volNo podPath w))
    (Path c ["volumes"; strconv_Itoa volNo]).
Proof.
  unfold empty_volume, bind, ret, traced_or.
  destruct (os_MkdirAll env _ _ w) as [[[e|]|v|] w1] eqn:E1; simpl; eauto;
    try (exfalso; unfold os_MkdirAll in E1; no_panic E1).
  destruct (unix_Stat env podPath w1) as [[[e|st]|v|] w2] eqn:E2; simpl; eauto;
    try (exfalso; unfold unix_Stat in E2; no_panic E2).
  - destruct (os_IsNotExist e); simpl; eauto.
  - destruct (unix_Chmod env _ _ w2) as [[[e|]|v|] w3] eqn:E3; simpl; eauto;
      try (exfalso; unfold unix_Chmod in E3; no_panic E3).
    destruct (unix_Chown env _ _ _ w3) as [[[e|]|v|] w4] eqn:E4; simpl; eauto;
      try (exfalso; unfold unix_Chown in E4; no_panic E4).
Qed.

Lemma mount_one_traced (c : Pod) (imgApp : App) (mnt : Mount) (line : string)
    (w : World) :
  binding_line c imgApp mnt = Some line →
  traced_or (fst (mount_one env c imgApp mnt w)) line.
Proof.
  unfold binding_line, mount_one, host_path, bind, ret.
  destruct (find_volume 0 _ _) as [[volNo vol]|]; [|intros [=]].
  destruct (find_mountPoint _ _) as [mntPoint|]; [|intros [=]].
  intros [= <-].
  destruct (String.eqb (vol_Kind vol) "empty"); [|right; reflexivity].
  pose proof (empty_volume_traced c volNo (Path c ["rootfs"; mntp_Path mntPoint]) w) as H.
  destruct (empty_volume env c volNo _ w) as [r w1]. simpl in H.
  destruct H as [[e ->]| ->]; [left; eauto|right; reflexivity].
Qed.

Lemma mounts_loop_traced (c : Pod) (imgApp : App) (mounts : list Mount)
    (fulfilled : gmap string bool) (fstab : list string) (w : World) :
  (∀ mnt, In mnt mounts → is_Some (binding_line c imgApp mnt)) →
  traced_or (fst (mounts_loop env c imgApp mounts fulfilled fstab w))
    (fulfilled_after mounts fulfilled,
     (fstab ++ omap (binding_line c imgApp) mounts)%list).
Proof.
  revert fulfilled fstab w.
  induction mounts as [|mnt rest IH]; intros fulfilled fstab w Hb; simpl.
  - right. rewrite app_nil_r. reflexivity.
  - destruct (Hb mnt (or_introl eq_refl)) as [line Hline]. rewrite Hline.
    pose proof (mount_one_traced c imgApp mnt line w Hline) as H1.
    unfold bind. destruct (mount_one env c imgApp mnt w) as [r w1]. simpl in H1.
    destruct H1 as [[e ->]| ->]; [left; eauto|].
    specialize (IH (<[mnt_MountPoint mnt := true]> fulfilled) (fstab ++ [line])%list w1
                  (fun m Hm => Hb m (or_intror Hm))).
    rewrite <- app_assoc in IH. exact IH.
Qed.

Lemma omap_resolved (c : Pod) (imgApp : App) (mounts : list Mount) :
  (∀ mnt, In mnt mounts → is_Some (binding_line c imgApp mnt)) →
  Forall2 (fun mnt line => binding_line c imgApp mnt = Some line)
    mounts (omap (binding_line c imgApp) mounts).
Proof.
  induction mounts as [|mnt rest IH]; intros Hb; simpl; [constructor|].
  destruct (Hb mnt (or_introl eq_refl)) as [line Hline]. rewrite Hline.
  constructor; [exact Hline|]. apply IH. intros m Hm. apply Hb. right. exact Hm.
Qed.

Lemma binding_lines_resolved (c : Pod) (img : ImageManifest) (app : RuntimeApp) :
  bindings_resolve c img app →
  Forall2
    (fun mnt line =>
       ∃ imgApp, img_App img = Some imgApp ∧ binding_line c imgApp mnt = Some line)
    (rta_Mounts app) (binding_lines c img app).
Proof.
  unfold bindings_resolve, binding_lines. intros Hb.
  destruct (img_App img) as [imgApp|].
  - eapply Forall2_impl; [apply omap_resolved|].
    + intros mnt Hm. destruct (Hb mnt Hm) as [a [[= <-] Hs]]. exact Hs.
    + intros mnt line H. eauto.
  - destruct (rta_Mounts app) as [|mnt rest]; [constructor|].
    destruct (Hb mnt (or_introl eq_refl)) as [a [[=] _]].
Qed.

(** The table of a well-formed pod: unless a system call fails, the
    loop over the applications answers the compatibility lines followed
    by the lines of the bindings. *)
Lemma apps_loop_table (c : Pod) (app : RuntimeApp) (img : ImageManifest) (w : World) :
  GetImageByHash env (rta_Image app) = inr img →
  bindings_resolve c img app →
  mount_points_satisfied img app →
  traced_or (fst (apps_loop env c [app] [] w))
    (compat_lines c img ++ binding_lines c img app)%list.
Proof.
  intros Hi Hb Hs.
  destruct (ioutil_ReadFile env "/etc/resolv.conf" w) as [[[e|bb]|v|] w1] eqn:Hr.
  2: destruct (ioutil_WriteFile env (Path c ["rootfs/etc/resolv.conf"]) bb perm_0644 w1)
       as [[[e|]|v|] w2] eqn:Hw.
  all: try (exfalso; unfold ioutil_ReadFile in Hr; no_panic Hr).
  all: try (exfalso; unfold ioutil_WriteFile in Hw; no_panic Hw).
  - left. exists e. simpl. rewrite Hi. unfold bind. rewrite Hr. reflexivity.
  - left. exists e. simpl. rewrite Hi. unfold bind. rewrite Hr, Hw. reflexivity.
  - destruct (img_App img) as [imgApp|] eqn:Ht.
    + rewrite (apps_loop_template c app img imgApp bb w w1 w2 Hi Ht Hr Hw).
      assert (∀ mnt, In mnt (rta_Mounts app) → is_Some (binding_line c imgApp mnt)) as Hb'.
      { intros mnt Hm. destruct (Hb mnt Hm) as [a [Ha Hl]]. congruence. }
      pose proof (mounts_loop_traced c imgApp (rta_Mounts app) ∅ (compat_lines c img) w2 Hb')
        as H.
      destruct (mounts_loop env c imgApp _ _ _ w2) as [r w3]. simpl in H.
      destruct H as [[e ->]| ->]; [left; eauto|].
      rewrite unfulfilled_of_after, (Hs imgApp Ht). right.
      unfold binding_lines. rewrite Ht. reflexivity.
    + rewrite (apps_loop_no_template c app img bb w w1 w2 Hi Ht Hr Hw).
      right. unfold binding_lines. rewrite Ht, app_nil_r. reflexivity.
Qed.

End MountResolver.

Section Lifecycle.

Variable env : Env.

Lemma extends_refl (w : World) : extends w w.
Proof. exists []. rewrite app_nil_r. split; [reflexivity|constructor]. Qed.

Lemma extends_trans (w1 w2 w3 : World) :
  extends w1 w2 → extends w2 w3 → extends w1 w3.
Proof.
  intros [d1 [H1 F1]] [d2 [H2 F2]]. exists (d1 ++ d2)%list.
  rewrite H2, H1, app_assoc. split; [reflexivity|apply Forall_app; auto].
Qed.

Lemma extends_one (c : Call) (w w' : World) :
  teardown c = false → calls w' = (calls w ++ [c])%list → extends w w'.
Proof. intros Hc H. exists [c]. split; [exact H|constructor; [exact Hc|constructor]]. Qed.

Lemma quietW_ret {A} (a : A) : quietW (ret a).
Proof. intros w r w' [= <- <-]. apply extends_refl. Qed.

Lemma quietW_bind {A B} (m : M World A) (k : A → M World B) :
  quietW m → (∀ a, quietW (k a)) → quietW (bind m k).
Proof.
  intros Hm Hk w r w'. unfold bind.
  destruct (m w) as [[a|v|] w1] eqn:E; specialize (Hm _ _ _ E).
  - intros H. eapply extends_trans; [exact Hm|]. eapply Hk; exact H.
  - intros [= <- <-]. exact Hm.
  - intros [= <- <-]. exact Hm.
Qed.

Lemma quietW_syscall {A} (c : Call)
    (act : gmap string Node → (error + A) * gmap string Node) :
  teardown c = false → quietW (syscall env c act).
Proof.
  intros Hc w r w' H. apply (extends_one c); [exact Hc|].
  eapply syscall_calls; exact H.
Qed.

Lemma quietW_syscall_ (c : Call)
    (act : gmap string Node → (error + unit) * gmap string Node) :
  teardown c = false → quietW (syscall_ env c act).
Proof.
  intros Hc w r w' H. apply (extends_one c); [exact Hc|].
  eapply syscall__calls; exact H.
Qed.

Lemma quietS_ret {A} (a : A) : quietS (ret a).
Proof. intros s r s' [= <- <-]. apply extends_refl. Qed.

Lemma quietS_panic {A} (v : PanicVal) : quietS (@panic State A v).
Proof. intros s r s' [= <- <-]. apply extends_refl. Qed.

Lemma quietS_out_of_fuel {A} : quietS (@out_of_fuel State A).
Proof. intros s r s' [= <- <-]. apply extends_refl. Qed.

Lemma quietS_lift {A} (x : Res A) : quietS (lift x).
Proof. intros s r s' [= <- <-]. apply extends_refl. Qed.

Lemma quietS_get_pod : quietS get_pod.
Proof. intros s r s' [= <- <-]. apply extends_refl. Qed.

Lemma quietS_put_pod (c : Pod) : quietS (put_pod c).
Proof. intros s r s' [= <- <-]. apply extends_refl. Qed.

Lemma quietS_os {A} (m : M World A) : quietW m → quietS (os m).
Proof.
  intros Hm s r s'. unfold os. destruct (m (world s)) as [r1 w1] eqn:E.
  intros [= <- <-]. simpl. eapply Hm; exact E.
Qed.

Lemma quietS_bind {A B} (m : M State A) (k : A → M State B) :
  quietS m → (∀ a, quietS (k a)) → quietS (bind m k).
Proof.
  intros Hm Hk s r s'. unfold bind.
  destruct (m s) as [[a|v|] s1] eqn:E; specialize (Hm _ _ _ E).
  - intros H. eapply extends_trans; [exact Hm|]. eapply Hk; exact H.
  - intros [= <- <-]. exact Hm.
  - intros [= <- <-]. exact Hm.
Qed.

Ltac quiet_step :=
  first
    [ apply quietW_ret | apply quietS_ret | apply quietS_panic | apply quietS_lift
    | apply quietS_get_pod | apply quietS_put_pod | apply quietS_out_of_fuel
    | apply quietW_syscall; reflexivity
    | apply quietW_syscall_; reflexivity
    | apply quietS_os
    | apply quietW_bind; [|intros ?]
    | apply quietS_bind; [|intros ?]
    | match goal with
      | |- quietW (match ?x with _ => _ end) => destruct x
      | |- quietS (match ?x with _ => _ end) => destruct x
      | |- quietW (if ?b then _ else _) => destruct b
      | |- quietS (if ?b then _ else _) => destruct b
      end ].

Ltac quiet := repeat quiet_step.

Lemma quiet_empty_volume (c : Pod) (volNo : nat) (podPath : string) :
  quietW (empty_volume env c volNo podPath).
Proof.
  unfold empty_volume, os_MkdirAll, unix_Stat, unix_Chmod, unix_Chown. quiet.
Qed.

Lemma quiet_mount_one (c : Pod) (imgApp : App) (mnt : Mount) :
  quietW (mount_one env c imgApp mnt).
Proof.
  unfold mount_one. quiet; try apply quiet_empty_volume; quiet.
Qed.

Lemma quiet_mounts_loop (c : Pod) (imgApp : App) (mounts : list Mount)
    (fulfilled : gmap string bool) (fstab : list string) :
  quietW (mounts_loop env c imgApp mounts fulfilled fstab).
Proof.
  revert fulfilled fstab. induction mounts as [|mnt rest IH]; intros fulfilled fstab; simpl.
  - quiet.
  - apply quietW_bind; [apply quiet_mount_one|]. intros [e|line]; [quiet|apply IH].
Qed.

Lemma quiet_apps_loop (c : Pod) (apps : list RuntimeApp) (fstab : list string) :
  quietW (apps_loop env c apps fstab).
Proof.
  revert fstab. induction apps as [|app rest IH]; intros fstab; simpl.
  - quiet.
  - destruct (GetImageByHash env (rta_Image app)) as [e|img]; [quiet|].
    unfold ioutil_ReadFile, ioutil_WriteFile.
    apply quietW_bind; [quiet|]. intros [e|bb]; [quiet|].
    apply quietW_bind; [quiet|]. intros [e|]; [quiet|].
    destruct (img_App img) as [imgApp|]; [|apply IH].
    apply quietW_bind; [apply quiet_mounts_loop|].
    intros [e|[fulfilled fstab']]; [quiet|].
    destruct (Nat.ltb 0 _); [quiet|apply IH].
Qed.

Lemma quiet_write_conf : quietS (write_conf env).
Proof. unfold write_conf, ioutil_WriteFile. quiet. Qed.

Lemma quiet_prepJail : quietS (prepJail env).
Proof.
  unfold prepJail, ioutil_WriteFile.
  apply quietS_bind; [quiet|]. intros c. destruct (negb _); [quiet|].
  apply quietS_bind; [apply quietS_os, quiet_apps_loop|].
  intros [e|fstab]; [quiet|]. destruct (Nat.ltb 0 _); [|apply quiet_write_conf].
  apply quietS_bind; [quiet|]. intros [e|]; [quiet|].
  apply quietS_bind; [quiet|]. intros _. apply quiet_write_conf.
Qed.

Lemma quiet_jailStatus (refresh : bool) : quietS (jailStatus env refresh).
Proof.
  unfold jailStatus. apply quietS_bind; [quiet|]. intros c.
  apply quietS_bind; [quiet|]. intros name. apply quietS_os.
  intros w r w' [= <- <-].
  apply (extends_one (CJailStatus name refresh)); reflexivity.
Qed.

Lemma quiet_Status : quietS (Status env).
Proof. unfold Status. apply quietS_bind; [apply quiet_jailStatus|]. intros r. quiet. Qed.

Lemma quiet_Pod_Jid : quietS (Pod_Jid env).
Proof. unfold Pod_Jid. apply quietS_bind; [apply quiet_jailStatus|]. intros r. quiet. Qed.

Lemma quiet_runJail (op : string) : quietS (runJail env op).
Proof.
  unfold runJail, external. apply quietS_bind; [apply quiet_prepJail|].
  intros r. quiet.
Qed.

(** [Kill] looks up no dataset, destroys none and removes no tree. *)
Lemma quiet_Kill (fuel : nat) : quietS (Kill env fuel).
Proof.
  induction fuel as [|fuel IH]; simpl; [quiet|].
  apply quietS_bind; [apply quiet_Status|]. intros status. destruct status.
  - quiet.
  - apply quietS_bind; [apply quiet_runJail|]. intros [e|]; [quiet|apply IH].
  - unfold external. apply quietS_bind; [quiet|]. intros _.
    apply quietS_bind; [quiet|]. intros _. apply IH.
  - quiet.
Qed.

(** More fuel does not change an answer: once [Kill] has answered
    within [n] retries, it answers the same with any larger bound. *)
Lemma Kill_fuel_mono (n : nat) :
  ∀ (s s' : State) (r : Res (option error)),
    Kill env n s = (r, s') → r ≠ OutOfFuel →
    ∀ m, (n ≤ m)%nat → Kill env m s = (r, s').
Proof.
  induction n as [|n IH]; intros s s' r H Hr m Hm.
  - injection H as <- _. congruence.
  - destruct m as [|m]; [lia|]. simpl in *. unfold bind in *.
    destruct (Status env s) as [[status|v|] s1]; try exact H.
    destruct status; try exact H.
    + destruct (runJail env "-r" s1) as [[[e|]|v|] s2]; try exact H.
      apply IH; [exact H|exact Hr|lia].
    + destruct (os (external env (CPrintf _)) s1) as [[x|v|] s2]; try exact H.
      destruct (os (external env (CSleep 2500)) s2) as [[y|v|] s3]; try exact H.
      apply IH; [exact H|exact Hr|lia].
Qed.

Lemma Destroy_fuel_mono (n m : nat) (s s' : State) (r : Res (option error)) :
  Destroy env n s = (r, s') → r ≠ OutOfFuel → (n ≤ m)%nat →
  Destroy env m s = (r, s').
Proof.
  unfold Destroy, bind. intros H Hr Hm.
  destruct (Pod_Jid env s) as [[jid|v|] s1]; try exact H.
  destruct (negb (Z.eqb jid 0)); [|exact H].
  destruct (Kill env n s1) as [rk s2] eqn:EK.
  assert (rk ≠ OutOfFuel) as Hk.
  { intros ->. injection H as <- _. congruence. }
  rewrite (Kill_fuel_mono n s1 s2 rk EK Hk m Hm). exact H.
Qed.

Lemma getDataset_found (s s3 : State) (ds : string) :
  getDataset env s = (Ret (Some ds), s3) →
  s3 = {| pod := pod s;
          world := record (CGetDataset (path_Join env ["pods"; UUID (pod s)])) (world s) |}.
Proof.
  unfold getDataset, bind, get_pod, os, Host_GetDataset, ret, panic.
  destruct (Dataset_GetDataset env _ _) as [e|d]; [destruct e|]; intros [=]; subst;
    reflexivity.
Qed.

Lemma external_run (c : Call) (s s' : State) r :
  os (external env c) s = (r, s') →
  s' = {| pod := pod s; world := record c (world s) |}
  ∧ r = Ret (fault env (calls (world s)) c).
Proof.
  unfold os, external, syscall_, bind, ret, syscall, record.
  destruct (fault env (calls (world s)) c); simpl; intros [= <- <-]; split; reflexivity.
Qed.

Lemma remove_tree_run (s : State) :
  ∃ r s', remove_tree env s = (Ret r, s')
          ∧ calls (world s') = (calls (world s) ++ [CRemoveAll (Path (pod s) [])])%list.
Proof.
  unfold remove_tree, bind, get_pod, os, os_RemoveAll, syscall_, bind, ret, syscall,
    record.
  destruct (fault env (calls (world s)) _); simpl; eexists; eexists; split; reflexivity.
Qed.

(** C6 (as amended). On a pod whose jail is attached (the job id
    answered by [Jid] is not 0), [Destroy] runs [Kill] first. Neither
    [Jid] nor [Kill] looks up or destroys the dataset or removes a
    directory tree. If [Kill] answers an error, [Destroy] answers that
    error, traced, in the state [Kill] left: nothing is done after
    [Kill] (what [Kill] itself wrote while preparing the jail stays
    written). If [Kill] answers [nil] and the pod has a dataset, the next
    two calls are the lookup and the recursive destruction of the
    dataset, which leave the file system as it was; if the destruction
    answers an error, [Destroy] answers that error, traced, and stops
    there, so that the directory tree is not removed; otherwise the one
    call that follows is the removal of the pod's directory tree. *)
Theorem Destroy_order (fuel : nat) (s s1 s2 : State) (jid : Z)
    (r : Res (option error)) :
  Pod_Jid env s = (Ret jid, s1) →
  jid ≠ 0 →
  Kill env fuel s1 = (r, s2) →
  extends (world s) (world s2)
  ∧ match r with
    | Ret (Some e) => Destroy env fuel s = (Ret (Some (Trace e)), s2)
    | Ret None =>
        ∀ ds s3 r' s4,
          getDataset env s2 = (Ret (Some ds), s3) →
          Dataset_Destroy env ds ["-r"] s3 = (r', s4) →
          pod s4 = pod s2
          ∧ nodes (world s4) = nodes (world s2)
          ∧ calls (world s4) =
              (calls (world s2)
               ++ [CGetDataset (path_Join env ["pods"; UUID (pod s2)]);
                   CDatasetDestroy ds ["-r"]])%list
          ∧ match r' with
            | Ret (Some e) => Destroy env fuel s = (Ret (Some (Trace e)), s4)
            | Ret None =>
                ∃ r'' s5,
                  Destroy env fuel s = (Ret r'', s5)
                  ∧ calls (world s5) =
                      (calls (world s4) ++ [CRemoveAll (Path (pod s2) [])])%list
            | Panic v => Destroy env fuel s = (Panic v, s4)
            | OutOfFuel => Destroy env fuel s = (OutOfFuel, s4)
            end
    | Panic v => Destroy env fuel s = (Panic v, s2)
    | OutOfFuel => Destroy env fuel s = (OutOfFuel, s2)
    end.
Proof.
  intros HJ Hne HK. split.
  { eapply extends_trans; [eapply quiet_Pod_Jid; exact HJ|eapply quiet_Kill; exact HK]. }
  assert (Destroy env fuel s =
          match r with
          | Ret (Some e) => (Ret (Some (Trace e)), s2)
          | Ret None => destroy_dataset env s2
          | Panic v => (Panic v, s2)
          | OutOfFuel => (OutOfFuel, s2)
          end) as HD.
  { unfold Destroy, bind at 1. rewrite HJ.
    destruct (Z.eqb_spec jid 0) as [|_]; [contradiction|]. simpl.
    unfold bind at 1. rewrite HK. destruct r as [[e|]| |]; reflexivity. }
  destruct r as [[e|]|v|]; try exact HD.
  intros ds s3 r' s4 HG HX.
  assert (Destroy env fuel s =
          match r' with
          | Ret (Some e) => (Ret (Some (Trace e)), s4)
          | Ret None => remove_tree env s4
          | Panic v => (Panic v, s4)
          | OutOfFuel => (OutOfFuel, s4)
          end) as HD'.
  { rewrite HD. unfold destroy_dataset, bind at 1. rewrite HG.
    unfold bind at 1. rewrite HX. destruct r' as [[e|]| |]; reflexivity. }
  pose proof (getDataset_found _ _ _ HG) as Hs3.
  unfold Dataset_Destroy in HX. destruct (external_run _ _ _ _ HX) as [Hs4 Hr'].
  rewrite Hs3 in Hs4. simpl in Hs4.
  split; [rewrite Hs4; reflexivity|].
  split; [rewrite Hs4; reflexivity|].
  split; [rewrite Hs4; simpl; rewrite <- app_assoc; reflexivity|].
  destruct r' as [[e|]|v|]; try exact HD'.
  destruct (remove_tree_run s4) as [r'' [s5 [H1 H2]]].
  exists r'', s5. split; [rewrite HD'; exact H1|].
  rewrite H2. rewrite Hs4 at 2. reflexivity.
Qed.

End Lifecycle.

Section ResolverSucceeds.

Variable env : Env.
Hypothesis Hquiet : no_faults env.

Lemma MkdirAll_ok (name : string) (perm : Z) (w : World) :
  (∀ n, nodes w !! name = Some n → n_dir n = true) →
  ∃ w', os_MkdirAll env name perm w = (Ret None, w')
        ∧ (∃ n, nodes w' !! name = Some n ∧ n_dir n = true)
        ∧ (∀ k, k ≠ name → nodes w' !! k = nodes w !! k).
Proof.
  intros Hd. unfold os_MkdirAll, syscall_, bind, ret.
  rewrite (syscall_ok env _ _ _ (Hquiet _ _)).
  destruct (nodes w !! name) as [n|] eqn:E; simpl.
  - rewrite (Hd n eq_refl). simpl. eexists. split; [reflexivity|]. simpl. eauto.
  - eexists. split; [reflexivity|]. simpl. split.
    + exists (created env true "" perm). rewrite lookup_insert_eq. auto.
    + intros k Hk. apply lookup_insert_ne. congruence.
Qed.

Lemma restat_ok (c : Call) (name : string) (f : Node → Stat_t) (w : World) (n : Node) :
  nodes w !! name = Some n →
  syscall_ env c (fun fs =>
    match fs !! name with
    | None => (inl ErrNotExist, fs)
    | Some n => (inr tt, <[name := with_stat n (f n)]> fs)
    end) w
  = (Ret None, {| nodes := <[name := with_stat n (f n)]> (nodes w);
                  calls := (calls w ++ [c])%list |}).
Proof.
  intros Hn. unfold syscall_, bind, ret.
  rewrite (syscall_ok env _ _ _ (Hquiet _ _)), Hn. reflexivity.
Qed.

Lemma volume_dirs_insert (c : Pod) (fs : gmap string Node) (name : string) (n : Node) :
  volume_dirs c fs → n_dir n = true → volume_dirs c (<[name := n]> fs).
Proof.
  intros Hv Hn i m. rewrite lookup_insert. case_decide.
  - intros [= <-]. exact Hn.
  - apply Hv.
Qed.

Lemma empty_volume_succeeds (c : Pod) (volNo : nat) (podPath : string) (w : World) :
  volume_dirs c (nodes w) →
  ∃ w', empty_volume env c volNo podPath w
        = (Ret (inr (Path c ["volumes"; strconv_Itoa volNo])), w')
        ∧ volume_dirs c (nodes w').
Proof.
  intros Hv. unfold empty_volume.
  destruct (MkdirAll_ok (Path c ["volumes"; strconv_Itoa volNo]) perm_0700 w (Hv volNo))
    as [w1 [Hm [[n [Hn Hd]] Hk]]].
  assert (volume_dirs c (nodes w1)) as Hv1.
  { intros i m Hi. destruct (decide (Path c ["volumes"; strconv_Itoa i]
                                     = Path c ["volumes"; strconv_Itoa volNo])) as [E|E].
    - rewrite E in Hi. congruence.
    - rewrite (Hk _ E) in Hi. eapply Hv; exact Hi. }
  unfold bind at 1. rewrite Hm. unfold bind at 1, unix_Stat.
  rewrite (syscall_ok env _ _ _ (Hquiet _ _)).
  destruct (nodes w1 !! podPath) as [p|]; simpl.
  - unfold bind at 1, unix_Chmod.
    erewrite restat_ok with (f := fun n => {| st_Mode := _; st_Uid := _; st_Gid := _ |})
      by (simpl; exact Hn).
    unfold bind at 1, unix_Chown.
    erewrite restat_ok with (f := fun n => {| st_Mode := _; st_Uid := _; st_Gid := _ |})
      by (simpl; apply lookup_insert_eq).
    eexists. split; [reflexivity|]. simpl.
    apply volume_dirs_insert; [apply volume_dirs_insert|]; auto.
  - eexists. split; [reflexivity|]. exact Hv1.
Qed.

Lemma mount_one_succeeds (c : Pod) (imgApp : App) (mnt : Mount) (line : string)
    (w : World) :
  volume_dirs c (nodes w) →
  binding_line c imgApp mnt = Some line →
  ∃ w', mount_one env c imgApp mnt w = (Ret (inr line), w')
        ∧ volume_dirs c (nodes w').
Proof.
  intros Hv. unfold binding_line, mount_one, host_path.
  destruct (find_volume 0 _ _) as [[volNo vol]|]; [|intros [=]].
  destruct (find_mountPoint _ _) as [mntPoint|]; [|intros [=]].
  intros [= <-]. destruct (String.eqb (vol_Kind vol) "empty").
  - destruct (empty_volume_succeeds c volNo (Path c ["rootfs"; mntp_Path mntPoint]) w Hv)
      as [w' [He Hv']].
    exists w'. unfold bind. rewrite He. split; [reflexivity|exact Hv'].
  - exists w. split; [reflexivity|exact Hv].
Qed.

Lemma mounts_loop_succeeds (c : Pod) (imgApp : App) (mounts : list Mount)
    (fulfilled : gmap string bool) (fstab : list string) (w : World) :
  volume_dirs c (nodes w) →
  (∀ mnt, In mnt mounts → is_Some (binding_line c imgApp mnt)) →
  ∃ w', mounts_loop env c imgApp mounts fulfilled fstab w
        = (Ret (inr (fulfilled_after mounts fulfilled,
                     (fstab ++ omap (binding_line c imgApp) mounts)%list)), w').
Proof.
  revert fulfilled fstab w.
  induction mounts as [|mnt rest IH]; intros fulfilled fstab w Hv Hb; simpl.
  - exists w. rewrite app_nil_r. reflexivity.
  - destruct (Hb mnt (or_introl eq_refl)) as [line Hline]. rewrite Hline.
    destruct (mount_one_succeeds c imgApp mnt line w Hv Hline) as [w1 [H1 Hv1]].
    unfold bind. rewrite H1.
    destruct (IH (<[mnt_MountPoint mnt := true]> fulfilled) (fstab ++ [line])%list w1 Hv1
                (fun m Hm => Hb m (or_intror Hm))) as [w' H'].
    exists w'. rewrite H', <- app_assoc. reflexivity.
Qed.

(** On a well-formed pod the resolver goes through, when no call is
    refused, the host has a [resolv.conf], its copy in the pod is not a
    directory, and no regular file is in the way of a volume
    directory. *)
Lemma apps_loop_succeeds (c : Pod) (app : RuntimeApp) (img : ImageManifest)
    (w : World) (n : Node) :
  GetImageByHash env (rta_Image app) = inr img →
  bindings_resolve c img app →
  mount_points_satisfied img app →
  nodes w !! "/etc/resolv.conf" = Some n → n_dir n = false →
  (∀ m, nodes w !! Path c ["rootfs/etc/resolv.conf"] = Some m → n_dir m = false) →
  volume_dirs c (nodes w) →
  (∀ i, Path c ["volumes"; strconv_Itoa i] ≠ Path c ["rootfs/etc/resolv.conf"]) →
  ∃ w', apps_loop env c [app] [] w
        = (Ret (inr (compat_lines c img ++ binding_lines c img app)%list), w').
Proof.
  intros Hi Hb Hs Hn Hd Hdest Hv Hne.
  pose proof (ReadFile_present env "/etc/resolv.conf" w n (Hquiet _ _) Hn Hd) as Hr.
  pose proof (WriteFile_ok env (Path c ["rootfs/etc/resolv.conf"]) (n_data n) perm_0644
                (record (CReadFile "/etc/resolv.conf") w) (Hquiet _ _) Hdest) as Hw.
  destruct (img_App img) as [imgApp|] eqn:Ht.
  - rewrite (apps_loop_template env c app img imgApp _ w _ _ Hi Ht Hr Hw).
    edestruct (mounts_loop_succeeds c imgApp (rta_Mounts app) ∅ (compat_lines c img))
      as [w' H'].
    2: { intros mnt Hm. destruct (Hb mnt Hm) as [a [Ha Hl]]. rewrite Ht in Ha.
         injection Ha as <-. exact Hl. }
    2: { rewrite H', unfulfilled_of_after, (Hs imgApp Ht). simpl.
         exists w'. unfold binding_lines. rewrite Ht. reflexivity. }
    simpl. intros i m. rewrite lookup_insert_ne by (intros E; apply (Hne i); congruence).
    apply Hv.
  - rewrite (apps_loop_no_template env c app img _ w _ _ Hi Ht Hr Hw).
    eexists. unfold binding_lines. rewrite Ht, app_nil_r. reflexivity.
Qed.

End ResolverSucceeds.

Section MountTable.

Variable env : Env.

Lemma prepJail_writes_table (c : Pod) (app : RuntimeApp) (w w' : World)
    (fstab : list string) :
  Apps (Manifest c) = [app] →
  apps_loop env c [app] [] w = (Ret (inr fstab), w') →
  fstab ≠ [] →
  ∃ rest,
    calls (world (snd (prepJail env {| pod := c; world := w |}))) =
      (calls w'
       ++ CWriteFile (Path c ["fstab"]) (String.concat "" fstab) perm_0600 :: rest)%list.
Proof.
  intros Ha Hl Hne.
  assert (Nat.ltb 0 (length fstab) = true) as Hlen
    by (destruct fstab; [congruence|reflexivity]).
  unfold prepJail, bind at 1, get_pod. simpl. rewrite Ha. simpl.
  unfold bind at 1. rewrite (os_run _ _ _ _ _ Hl), Hlen.
  set (data := String.concat "" fstab).
  unfold bind at 1.
  destruct (os (ioutil_WriteFile env (Path c ["fstab"]) data perm_0600)
              {| pod := c; world := w' |}) as [r s1] eqn:E.
  assert (calls (world s1)
          = (calls w' ++ [CWriteFile (Path c ["fstab"]) data perm_0600])%list) as Hc.
  { unfold os in E. simpl in E.
    destruct (ioutil_WriteFile env _ _ _ w') as [r1 w1] eqn:E1.
    injection E as <- <-. simpl. unfold ioutil_WriteFile in E1.
    apply (syscall__calls env _ _ _ _ _ E1). }
  destruct r as [[e|]|v|]; simpl; try (exists []; exact Hc).
  match goal with
  | |- context [bind ?m ?k s1] => destruct (bind m k s1) as [r2 s2] eqn:E2
  end.
  assert (extends (world s1) (world s2)) as [delta [Hd _]].
  { revert E2. apply quietS_bind; [apply quietS_put_pod|]. intros _. apply quiet_write_conf. }
  exists delta. simpl. rewrite Hd, Hc, <- app_assoc. reflexivity.
Qed.

(** C2 (as amended). Take a pod with one application whose image
    resolves, in which every binding names a volume of the manifest and
    a mount point of the image's application template (so that the
    image declares a template as soon as the pod has a binding), and
    every declared mount point is named by a binding. The mount table
    then is the two compatibility lines when the image's [os] label is
    [linux] (none otherwise), followed by one line per binding, in the
    order of [Mounts]: unless a system call fails, which the resolver
    answers as a traced error, it answers this table. It does answer the
    table when no call is refused, the host has a [resolv.conf], its copy
    in the pod is not a directory and no regular file is in the way of a
    volume directory. Once the resolver has answered a table with lines,
    [prepJail] next writes the concatenation of the lines to the pod's
    [fstab] file with mode 0600. *)
Theorem mount_table (c : Pod) (app : RuntimeApp) (img : ImageManifest) (w : World) :
  Apps (Manifest c) = [app] →
  GetImageByHash env (rta_Image app) = inr img →
  bindings_resolve c img app →
  mount_points_satisfied img app →
  let compat := compat_lines c img in
  let lines := binding_lines c img app in
  let table := (compat ++ lines)%list in
  compat = (if String.eqb (fst (GetLabel (img_Labels img) "os")) "linux"
            then [ "linsys " ++ Path c ["rootfs"; "sys"] ++ " linsysfs  rw 0 0" ++ nl;
                   "linproc " ++ Path c ["rootfs"; "proc"] ++ " linprocfs rw 0 0" ++ nl ]
            else [])
  ∧ length lines = length (rta_Mounts app)
  ∧ Forall2
      (fun mnt line =>
         ∃ imgApp, img_App img = Some imgApp ∧ binding_line c imgApp mnt = Some line)
      (rta_Mounts app) lines
  ∧ traced_or (fst (apps_loop env c (Apps (Manifest c)) [] w)) table
  ∧ (∀ n,
       no_faults env →
       nodes w !! "/etc/resolv.conf" = Some n → n_dir n = false →
       (∀ m, nodes w !! Path c ["rootfs/etc/resolv.conf"] = Some m → n_dir m = false) →
       volume_dirs c (nodes w) →
       (∀ i, Path c ["volumes"; strconv_Itoa i] ≠ Path c ["rootfs/etc/resolv.conf"]) →
       fst (apps_loop env c (Apps (Manifest c)) [] w) = Ret (inr table))
  ∧ (∀ w',
       apps_loop env c (Apps (Manifest c)) [] w = (Ret (inr table), w') →
       table ≠ [] →
       ∃ rest,
         calls (world (snd (prepJail env {| pod := c; world := w |}))) =
           (calls w'
            ++ CWriteFile (Path c ["fstab"]) (String.concat "" table) perm_0600
               :: rest)%list).
Proof.
  intros Ha Hi Hb Hs compat lines table.
  pose proof (binding_lines_resolved c img app Hb) as HF.
  split; [reflexivity|].
  split; [symmetry; eapply Forall2_length; exact HF|].
  split; [exact HF|]. rewrite Ha.
  split; [apply apps_loop_table; assumption|].
  split.
  - intros n Hq Hn Hd Hdest Hv Hne.
    destruct (apps_loop_succeeds env Hq c app img w n Hi Hb Hs Hn Hd Hdest Hv Hne)
      as [w' ->]. reflexivity.
  - intros w' Hl Hne. apply (prepJail_writes_table c app w w' table Ha Hl Hne).
Qed.

End MountTable.

(** * The code on examples *)

Import Example.

Lemma Status_derivation_witness :
  fst (Status (quiet_env jails_dying no_images)
         {| pod := pod_with zero_PodManifest; world := empty_world |})
  = Ret PodStatusDying.
Proof.
  destruct (Status_derivation (quiet_env jails_dying no_images)
              {| pod := pod_with zero_PodManifest; world := empty_world |}
              ("jetpack:" ++ uuid) {| Jid := 7; Dying := true |})
    as (status & HS & _ & _ & Hd & _).
  - reflexivity.
  - reflexivity.
  - intros H. discriminate H.
  - rewrite HS. simpl. f_equal. apply Hd; [discriminate|reflexivity].
Defined.

Lemma host_world_volume_dirs : volume_dirs pod_bound (nodes host_world).
Proof.
  intros i n. unfold host_world, nodes. rewrite lookup_insert. case_decide.
  - intros [= <-]. reflexivity.
  - rewrite lookup_singleton. case_decide; [|intros [=]].
    exfalso.
    match goal with
    | H : "/etc/resolv.conf" = Path _ _ |- _ =>
        unfold Path in H; simpl Host_Path in H; unfold join_path in H; revert H
    end.
    match goal with
    | |- _ = _ +:+ ?x → _ => generalize x
    end.
    intros p Hp. vm_compute in Hp. discriminate Hp.
Qed.

Lemma volume_path_not_resolv_conf (i : nat) :
  Path pod_bound ["volumes"; strconv_Itoa i] ≠ Path pod_bound ["rootfs/etc/resolv.conf"].
Proof.
  unfold Path. simpl Host_Path. unfold join_path. simpl map. simpl String.concat.
  generalize (strconv_Itoa i). intros p H. vm_compute in H. discriminate H.
Qed.

Lemma mount_table_witness :
  fst (apps_loop env_linux pod_bound (Apps (Manifest pod_bound)) [] host_world)
  = Ret (inr
      [ "linsys " ++ pod_dir ++ "/rootfs/sys linsysfs  rw 0 0" ++ nl;
        "linproc " ++ pod_dir ++ "/rootfs/proc linprocfs rw 0 0" ++ nl;
        "/srv/config " ++ pod_dir ++ "/rootfs/etc/app nullfs ro 0 0" ++ nl;
        pod_dir ++ "/volumes/0 " ++ pod_dir ++ "/rootfs/data nullfs rw 0 0" ++ nl ]).
Proof.
  assert (bindings_resolve pod_bound linux_image app_bound) as Hb.
  { intros mnt [<-|[<-|[]]]; eexists; (split; [reflexivity|]); eexists; vm_compute;
      reflexivity. }
  assert (mount_points_satisfied linux_image app_bound) as Hs.
  { intros imgApp [= <-]. reflexivity. }
  destruct (mount_table env_linux pod_bound app_bound linux_image host_world
              eq_refl eq_refl Hb Hs) as (_ & _ & _ & _ & H & _).
  apply (H (file resolv_conf)).
  - intros h c. reflexivity.
  - reflexivity.
  - reflexivity.
  - intros m. vm_compute. discriminate.
  - exact host_world_volume_dirs.
  - exact volume_path_not_resolv_conf.
Defined.

(** C2, counterexample: the image resolves but declares no
    application template, and the pod binds its volume [data]. No
    mount point is declared, so none is unsatisfied, and the volume
    exists; the resolver skips the binding: it answers an empty table
    for one declared binding, [prepJail] answers [nil], and no [fstab]
    is written. *)
Lemma binding_skipped_without_template :
  let s := {| pod := pod_bare_bound; world := host_world |} in
  Apps (Manifest pod_bare_bound) = [app_bare_bound]
  ∧ GetImageByHash env_bare (rta_Image app_bare_bound) = inr bare_image
  ∧ img_App bare_image = None
  ∧ mount_points_satisfied bare_image app_bare_bound
  ∧ rta_Mounts app_bare_bound = [bind_to "data" "data"]
  ∧ is_Some (find_volume 0 (Volumes (Manifest pod_bare_bound)) "data")
  ∧ fst (apps_loop env_bare pod_bare_bound (Apps (Manifest pod_bare_bound)) []
           host_world) = Ret (inr [])
  ∧ fst (prepJail env_bare s) = Ret None
  ∧ nodes (world (snd (prepJail env_bare s))) !! (pod_dir ++ "/fstab") = None
  ∧ length (rta_Mounts app_bare_bound) ≠ 0%nat.
Proof.
  repeat split; try (vm_compute; reflexivity).
  - intros imgApp H. discriminate H.
  - eexists. vm_compute. reflexivity.
  - discriminate.
Qed.

Lemma unfulfilled_mount_points_fail_witness :
  fst (prepJail env_freebsd {| pod := pod_data_only; world := host_world |})
  = Ret (Some (Errorf "Unfulfilled mount points for %v: %v"
                 [VName "example.com/app"; VNames ["config"]])).
Proof.
  pose (w1 := snd (ioutil_ReadFile env_freebsd "/etc/resolv.conf" host_world)).
  pose (w2 := snd (ioutil_WriteFile env_freebsd
                     (Path pod_data_only ["rootfs/etc/resolv.conf"]) resolv_conf
                     perm_0644 w1)).
  pose (r := mounts_loop env_freebsd pod_data_only (template [mp_data; mp_config])
               (rta_Mounts app_data_only) ∅ (compat_lines pod_data_only freebsd_image)
               w2).
  edestruct (unfulfilled_mount_points_fail env_freebsd pod_data_only app_data_only
               freebsd_image (template [mp_data; mp_config]) resolv_conf host_world
               w1 w2 (snd r))
    as [H _].
  1-3: reflexivity.
  1-2: apply injective_projections; reflexivity.
  - apply injective_projections; [vm_compute; reflexivity | reflexivity].
  - discriminate.
  - rewrite H. reflexivity.
Defined.

Lemma unknown_volume_fails_witness :
  fst (prepJail env_freebsd {| pod := pod_unknown_volume; world := host_world |})
  = Ret (Some (Errorf "Volume not found: %v" [VName "scratch"])).
Proof.
  pose (w1 := snd (ioutil_ReadFile env_freebsd "/etc/resolv.conf" host_world)).
  pose (w2 := snd (ioutil_WriteFile env_freebsd
                     (Path pod_unknown_volume ["rootfs/etc/resolv.conf"]) resolv_conf
                     perm_0644 w1)).
  edestruct unknown_volume_fails
    with (env := env_freebsd) (c := pod_unknown_volume) (app := app_unknown_volume)
         (img := freebsd_image) (imgApp := template [mp_data; mp_config])
         (bb := resolv_conf) (w := host_world) (w1 := w1) (w2 := w2) (w3 := w2)
         (pre := @nil Mount) (post := @nil Mount) (mnt := bind_to "scratch" "data")
    as [H _].
  1-3: reflexivity.
  1-2: apply injective_projections; reflexivity.
  1-3: reflexivity.
  rewrite H. reflexivity.
Defined.

(** C4, counterexample: the one binding of the pod names a volume
    that is not in [Volumes]. [prepJail] answers the formatted error
    "Volume not found", which is not [ErrNotFound], and by then it has
    written [resolv.conf] into the pod's root file system, where there
    was no such file. *)
Lemma unknown_volume_after_write :
  let s := {| pod := pod_unknown_volume; world := host_world |} in
  let s' := snd (prepJail env_freebsd s) in
  find_volume 0 (Volumes (Manifest (pod s))) "scratch" = None
  ∧ rta_Mounts app_unknown_volume = [bind_to "scratch" "data"]
  ∧ fst (prepJail env_freebsd s)
    = Ret (Some (Errorf "Volume not found: %v" [VName "scratch"]))
  ∧ fst (prepJail env_freebsd s) ≠ Ret (Some ErrNotFound)
  ∧ nodes (world s) !! (pod_dir ++ "/rootfs/etc/resolv.conf") = None
  ∧ n_data <$> nodes (world s') !! (pod_dir ++ "/rootfs/etc/resolv.conf")
    = Some resolv_conf
  ∧ calls (world s')
    = [ CReadFile "/etc/resolv.conf";
        CWriteFile (pod_dir ++ "/rootfs/etc/resolv.conf") resolv_conf perm_0644 ]
  ∧ nodes (world s') ≠ nodes (world s).
Proof.
  repeat split; try (vm_compute; reflexivity).
  - vm_compute. discriminate.
  - intros H.
    assert (nodes (world (snd (prepJail env_freebsd
                                 {| pod := pod_unknown_volume; world := host_world |})))
              !! (pod_dir ++ "/rootfs/etc/resolv.conf") = None) as H1.
    { rewrite H. vm_compute. reflexivity. }
    vm_compute in H1. discriminate H1.
Qed.

Lemma jailConf_ip_address_witness :
  (∃ v, jailConf_with env_linux map_to_list (pod_with (annotated [])) = Panic v)
  ∧ ∃ parameters,
      jailConf_parameters (pod_with (annotated [ip_address])) = Ret parameters
      ∧ parameters !! "ip4.addr" = Some "10.0.0.2"
      ∧ render_line env_linux ("ip4.addr", "10.0.0.2")
        ∈ sort_Strings (map (render_line env_linux) (map_to_list parameters)).
Proof.
  split.
  - apply (jailConf_ip_address env_linux (pod_with (annotated [])) map_to_list).
    reflexivity.
  - eexists. split; [reflexivity|].
    edestruct (proj2 (jailConf_ip_address env_linux (pod_with (annotated [ip_address]))
                        map_to_list) "10.0.0.2") as [_ H].
    + reflexivity.
    + reflexivity.
    + destruct (H eq_refl) as (H1 & _ & H3). split; [exact H1|exact H3].
Defined.

(** C5, counterexample: the pod has the annotation [ip-address] with
    value 10.0.0.2 and an annotation [jetpack/jail.conf/ip4.addr]; the
    [ip4.addr] parameter is the value of the latter. *)
Lemma jailConf_ip4_addr_overridden :
  let c := pod_with (annotated [ip_address; ip4_addr_override]) in
  Annotations_Get (Annotations (Manifest c)) "ip-address" = Some "10.0.0.2"
  ∧ ∃ parameters,
      jailConf_parameters c = Ret parameters
      ∧ parameters !! "ip4.addr" = Some "192.168.0.66"
      ∧ parameters !! "ip4.addr" ≠ Some "10.0.0.2"
      ∧ jailConf_lines env_linux map_to_list c
        = Ret (sort_Strings (map (render_line env_linux) (map_to_list parameters)))
      ∧ render_line env_linux ("ip4.addr", "10.0.0.2")
        ∉ sort_Strings (map (render_line env_linux) (map_to_list parameters)).
Proof.
  split; [reflexivity|]. eexists. split; [reflexivity|].
  split; [vm_compute; reflexivity|].
  split; [vm_compute; discriminate|].
  split; [reflexivity|].
  apply (bool_decide_unpack _). vm_compute. exact I.
Qed.

Lemma jailConf_deterministic_witness :
  jailConf_with env_linux backwards (pod_with (annotated [ip_address]))
  = jailConf_with env_linux map_to_list (pod_with (annotated [ip_address])).
Proof.
  apply (jailConf_deterministic env_linux (pod_with (annotated [ip_address]))
           backwards map_to_list).
  - intros m. unfold backwards. apply reverse_Permutation.
  - intros m. reflexivity.
Defined.

(** A pod whose jail runs until it is removed, with a dataset: the
    calls of [Destroy] are those of [Jid] and [Kill], then the lookup
    and the destruction of the dataset, then the removal of the tree. *)
Lemma Destroy_order_witness :
  let s := {| pod := pod_bare; world := host_world |} in
  ∃ r s',
    Destroy env_teardown 2 s = (Ret r, s')
    ∧ calls (world s') =
        (calls (world (snd (Kill env_teardown 2 (snd (Pod_Jid env_teardown s)))))
         ++ [ CGetDataset ("pods/" ++ uuid); CDatasetDestroy pod_dataset ["-r"];
              CRemoveAll pod_dir ])%list.
Proof.
  intros s.
  set (s1 := snd (Pod_Jid env_teardown s)).
  set (s2 := snd (Kill env_teardown 2 s1)).
  destruct (Destroy_order env_teardown 2 s s1 s2 7 (Ret None)) as [_ H].
  - reflexivity.
  - discriminate.
  - vm_compute. reflexivity.
  - destruct (H pod_dataset (snd (getDataset env_teardown s2)) (Ret None)
                (snd (Dataset_Destroy env_teardown pod_dataset ["-r"]
                        (snd (getDataset env_teardown s2)))))
      as (_ & _ & Hc & r & s5 & HD & Hc5).
    + vm_compute. reflexivity.
    + vm_compute. reflexivity.
    + exists r, s5. split; [exact HD|]. rewrite Hc5, Hc, <- app_assoc. reflexivity.
Defined.

(** C6, counterexample: the jail runs and the [jail -r] command fails.
    [Kill] fails, and [Destroy] answers that failure without any call
    to the dataset manager or any removal; but the pod's directory tree
    has been written to: [Kill] has prepared the jail, and
    [resolv.conf] and [jail.conf], which were not there, now are. *)
Lemma Destroy_Kill_failure_writes :
  let s := {| pod := pod_bare; world := host_world |} in
  let s' := snd (Destroy env_kill_fails 1 s) in
  fst (Pod_Jid env_kill_fails s) = Ret 7
  ∧ fst (Kill env_kill_fails 1 (snd (Pod_Jid env_kill_fails s)))
    = Ret (Some (Trace (Foreign "exit status 1")))
  ∧ fst (Destroy env_kill_fails 1 s)
    = Ret (Some (Trace (Trace (Foreign "exit status 1"))))
  ∧ Path (pod s) [] = pod_dir
  ∧ within pod_dir (pod_dir ++ "/jail.conf") = true
  ∧ nodes (world s) !! (pod_dir ++ "/jail.conf") = None
  ∧ n_dir <$> nodes (world s') !! (pod_dir ++ "/jail.conf") = Some false
  ∧ nodes (world s) !! (pod_dir ++ "/rootfs/etc/resolv.conf") = None
  ∧ n_data <$> nodes (world s') !! (pod_dir ++ "/rootfs/etc/resolv.conf")
    = Some resolv_conf
  ∧ filter (fun c => teardown c = true) (calls (world s')) = [].
Proof. repeat split; vm_compute; reflexivity. Qed.

(** A manifest with one application is saved into an empty world and
    loaded again. *)
Lemma Save_Load_roundtrip_witness :
  let m := manifest [runtime_app []] [vol_data] in
  ∃ s' w'',
    Save (env_codec m) {| pod := pod_with m; world := empty_world |} = (Ret None, s')
    ∧ LoadPod (env_codec m) host (Some uuid) (world s') = (Ret (inr (pod_with m)), w'').
Proof.
  intros m.
  apply (Save_Load_roundtrip (env_codec m) (pod_with m) empty_world encoding).
  - intros h c. reflexivity.
  - reflexivity.
  - reflexivity.
  - reflexivity.
  - reflexivity.
  - reflexivity.
Defined.

(** A manifest without any application is saved, and sealed. *)
Lemma Save_does_not_validate_witness :
  let m := annotated [ip_address] in
  ∃ s',
    Save (env_codec m) {| pod := pod_with m; world := empty_world |} = (Ret None, s')
    ∧ sealed (pod s') = true
    ∧ Manifest (pod s') = m
    ∧ n_data <$> nodes (world s') !! (pod_dir ++ "/manifest") = Some encoding
    ∧ n_dir <$> nodes (world s') !! (pod_dir ++ "/manifest") = Some false.
Proof.
  intros m.
  apply (Save_does_not_validate (env_codec m) (pod_with m) empty_world encoding).
  - reflexivity.
  - reflexivity.
  - intros n. vm_compute. discriminate.
Defined.

(** [Load] of a pod that has no manifest file answers [ErrNotFound] and
    leaves the pod unsealed. *)
Lemma Load_seals_only_on_success_witness :
  let s := {| pod := set_sealed (pod_with zero_PodManifest) false;
              world := empty_world |} in
  fst (Load env_linux s) = Ret (Some ErrNotFound)
  ∧ sealed (pod (snd (Load env_linux s))) = false.
Proof.
  intros s. split; [reflexivity|].
  apply (Load_seals_only_on_success env_linux s (snd (Load env_linux s))
           (Ret (Some ErrNotFound))).
  - reflexivity.
  - reflexivity.
Defined.

(** * Further properties of [pod.go] *)

Section StoreFrame.

Variable env : Env.

Lemma Stat_world (name : string) (w w' : World) r :
  unix_Stat env name w = (r, w') → w' = record (CStat name) w.
Proof.
  unfold unix_Stat, syscall, record. destruct (fault env (calls w) _).
  - intros [= <- <-]. reflexivity.
  - destruct (nodes w !! name); intros [= <- <-]; reflexivity.
Qed.

Lemma ReadFile_world (name : string) (w w' : World) r :
  ioutil_ReadFile env name w = (r, w') → w' = record (CReadFile name) w.
Proof.
  unfold ioutil_ReadFile, syscall, record. destruct (fault env (calls w) _).
  - intros [= <- <-]. reflexivity.
  - destruct (nodes w !! name) as [n|]; [destruct (n_dir n)|];
      intros [= <- <-]; reflexivity.
Qed.

Lemma WriteFile_refused (name data : string) (perm : Z) (w w' : World) (e : error) :
  ioutil_WriteFile env name data perm w = (Ret (Some e), w') →
  w' = record (CWriteFile name data perm) w.
Proof.
  unfold ioutil_WriteFile, syscall_, bind, ret, syscall, record.
  destruct (fault env (calls w) _); [intros [= <- <-]; reflexivity|].
  destruct (nodes w !! name) as [n|]; [destruct (n_dir n)|]; simpl; intros [=]; subst;
    reflexivity.
Qed.

Lemma WriteFile_Ret (name data : string) (perm : Z) (w w' : World) r :
  ioutil_WriteFile env name data perm w = (r, w') → ∃ err, r = Ret err.
Proof. apply syscall__Ret. Qed.

(** The frame of [Exists]: one [Stat], nothing else. *)
Lemma Exists_frame (s s' : State) r :
  Exists env s = (r, s') →
  s' = {| pod := pod s;
          world := record (CStat (Path (pod s) ["manifest"])) (world s) |}.
Proof.
  unfold Exists, bind, get_pod, os.
  destruct (unix_Stat env _ (world s)) as [r1 w1] eqn:E. apply Stat_world in E as ->.
  destruct r1 as [[e|st]|v|]; [destruct (os_IsNotExist e)|..]; intros [= <- <-];
    reflexivity.
Qed.

(** The frame of [readManifest]: one [ReadFile]; the pod keeps its
    identity, and its manifest unless the file was read and decoded. *)
Lemma readManifest_frame (s s' : State) r :
  readManifest env s = (r, s') →
  world s' = record (CReadFile (Path (pod s) ["manifest"])) (world s)
  ∧ UUID (pod s') = UUID (pod s)
  ∧ PodHost (pod s') = PodHost (pod s)
  ∧ (r = Ret None →
     ∃ data, json_Unmarshal env data (Manifest (pod s)) = inr (Manifest (pod s')))
  ∧ (r ≠ Ret None → pod s' = pod s).
Proof.
  unfold readManifest, bind, get_pod, os.
  destruct (ioutil_ReadFile env _ (world s)) as [r1 w1] eqn:E.
  apply ReadFile_world in E as ->.
  destruct r1 as [[e|data]|v|].
  - intros [= <- <-]. simpl. repeat split; congruence.
  - destruct (json_Unmarshal env data (Manifest (pod s))) as [e|m] eqn:U;
      intros [= <- <-]; simpl; repeat split; try congruence. eauto.
  - intros [= <- <-]. simpl. repeat split; congruence.
  - intros [= <- <-]. simpl. repeat split; congruence.
Qed.

(** [Load], case by case. *)
Lemma Load_cases (s s' : State) r :
  Load env s = (r, s') →
  (sealed (pod s) = true ∧ s' = s
   ∧ r = Panic (PStr "tried to load an already sealed pod"))
  ∨ (sealed (pod s) = false
     ∧ ((∃ v, Exists env s = (Panic v, s') ∧ r = Panic v)
        ∨ (Exists env s = (OutOfFuel, s') ∧ r = OutOfFuel)))
  ∨ (sealed (pod s) = false
     ∧ Exists env s = (Ret false, s') ∧ r = Ret (Some ErrNotFound))
  ∨ (sealed (pod s) = false
     ∧ ∃ s1 r2 s2,
         Exists env s = (Ret true, s1)
         ∧ readManifest env s1 = (r2, s2)
         ∧ ((∃ e, r2 = Ret (Some e) ∧ r = Ret (Some (Trace e)) ∧ s' = s2)
            ∨ (∃ v, r2 = Panic v ∧ r = Panic v ∧ s' = s2)
            ∨ (r2 = OutOfFuel ∧ r = OutOfFuel ∧ s' = s2)
            ∨ (r2 = Ret None
               ∧ ((∃ e, Load_verdict (Manifest (pod s2)) = Some e
                        ∧ r = Ret (Some e) ∧ s' = s2)
                  ∨ (Load_verdict (Manifest (pod s2)) = None ∧ r = Ret None
                     ∧ s' = {| pod := set_sealed (pod s2) true;
                               world := world s2 |}))))).
Proof.
  intros H. destruct (sealed (pod s)) eqn:Hs.
  - left. unfold Load, bind, get_pod in H. rewrite Hs in H.
    injection H as <- <-. auto.
  - right. unfold Load, bind at 1, get_pod in H. rewrite Hs in H.
    unfold bind at 1 in H.
    destruct (Exists env s) as [[found|v|] s1] eqn:He.
    + destruct found; simpl in H.
      * right. right. split; [reflexivity|]. exists s1.
        unfold bind at 1 in H.
        destruct (readManifest env s1) as [r2 s2] eqn:Hr. exists r2, s2.
        split; [reflexivity|]. split; [reflexivity|].
        destruct r2 as [[e|]|v|].
        -- left. injection H as <- <-. eauto.
        -- right. right. right. split; [reflexivity|].
           unfold bind, get_pod, ret, put_pod, Load_verdict in *.
           destruct (Nat.eqb _ 0); [left; injection H as <- <-; eauto|].
           destruct (Nat.ltb 1 _); [left; injection H as <- <-; eauto|].
           destruct (negb _); [left; injection H as <- <-; eauto|].
           right. injection H as <- <-. auto.
        -- right. left. injection H as <- <-. eauto.
        -- right. right. left. injection H as <- <-. auto.
      * right. left. injection H as <- <-. auto.
    + left. injection H as <- <-. split; [reflexivity|]. left. eauto.
    + left. injection H as <- <-. split; [reflexivity|]. right. auto.
Qed.

End StoreFrame.

Section StoreMore.

Variable env : Env.


(** X1. A pod that has been saved cannot be loaded: after a [Save]
    that answered [nil], [Load] on the same pod panics, and makes no
    call on the way. *)
Theorem Save_then_Load_panics (c : Pod) (w : World) (manifestJSON : string) :
  json_Marshal env (Manifest c) = inr manifestJSON →
  fault env (calls w) (CWriteFile (Path c ["manifest"]) manifestJSON perm_0400) = None →
  (∀ n, nodes w !! Path c ["manifest"] = Some n → n_dir n = false) →
  ∃ s', Save env {| pod := c; world := w |} = (Ret None, s')
        ∧ Load env s' = (Panic (PStr "tried to load an already sealed pod"), s').
Proof.
  intros Hm Hf Hd. eexists. split; [apply (Save_ok env c w manifestJSON Hm Hf Hd)|].
  reflexivity.
Qed.

(** X2. [Load] only reads: whatever it answers, the file system is as
    it was, the pod keeps its UUID and its host, and the calls it made
    are none (sealed pod), a [Stat] of the manifest file, or that [Stat]
    followed by a [ReadFile] of the same file. *)
Theorem Load_reads_only (s s' : State) (r : Res (option error)) :
  Load env s = (r, s') →
  nodes (world s') = nodes (world s)
  ∧ UUID (pod s') = UUID (pod s)
  ∧ PodHost (pod s') = PodHost (pod s)
  ∧ (calls (world s') = calls (world s)
     ∨ calls (world s') = (calls (world s) ++ [CStat (Path (pod s) ["manifest"])])%list
     ∨ calls (world s') =
         (calls (world s) ++ [CStat (Path (pod s) ["manifest"]);
                              CReadFile (Path (pod s) ["manifest"])])%list).
Proof.
  intros H. apply Load_cases in H.
  destruct H as [(_ & -> & _)|[(_ & H)|[(_ & H & _)|(_ & s1 & r2 & s2 & He & Hr & H)]]].
  - repeat split; auto.
  - destruct H as [(v & H & _)|(H & _)]; apply Exists_frame in H as ->; simpl;
      repeat split; auto.
  - apply Exists_frame in H as ->. simpl. repeat split; auto.
  - apply Exists_frame in He as ->. apply readManifest_frame in Hr as (Hw & Hu & Hh & _).
    simpl in *.
    assert (nodes (world s2) = nodes (world s)
            ∧ calls (world s2) =
                (calls (world s) ++ [CStat (Path (pod s) ["manifest"]);
                                     CReadFile (Path (pod s) ["manifest"])])%list)
      as [Hn Hc].
    { rewrite Hw. simpl. rewrite <- app_assoc. auto. }
    destruct H as [(e & _ & _ & ->)|[(v & _ & _ & ->)|[(_ & _ & ->)|(_ & H)]]];
      try (repeat split; auto; fail).
    destruct H as [(e & _ & _ & ->)|(_ & _ & ->)]; simpl; repeat split; auto.
Qed.


(** X4. After a [Load] that answered an error, the pod holds either
    the manifest it had (the file is missing, unreadable or does not
    decode) or the decoded manifest that the checks have just rejected:
    a rejected manifest stays in the pod, which stays unsealed. *)
Theorem Load_failure_manifest (s s' : State) (e : error) :
  sealed (pod s) = false →
  Load env s = (Ret (Some e), s') →
  sealed (pod s') = false
  ∧ (Manifest (pod s') = Manifest (pod s)
     ∨ (∃ data, json_Unmarshal env data (Manifest (pod s)) = inr (Manifest (pod s')))
       ∧ Load_verdict (Manifest (pod s')) = Some e).
Proof.
  intros Hs H. apply Load_cases in H.
  destruct H as [(_ & _ & H)|[(_ & H)|[(_ & H & _)|(_ & s1 & r2 & s2 & He & Hr & H)]]].
  - discriminate H.
  - destruct H as [(v & _ & H)|(_ & H)]; discriminate H.
  - apply Exists_frame in H as ->. simpl. auto.
  - apply Exists_frame in He as ->. pose proof (readManifest_sealed env _ _ _ Hr) as Hse.
    apply readManifest_frame in Hr as (_ & _ & _ & Hd & Hk). simpl in *.
    destruct H as [(e' & -> & _ & ->)|[(v & _ & H & _)|[(_ & H & _)|(-> & H)]]];
      try discriminate H.
    + rewrite (Hk ltac:(discriminate)). auto.
    + destruct H as [(e' & Hv & H & ->)|(_ & H & _)]; [|discriminate H].
      injection H as ->. split; [congruence|]. right. split; [apply Hd; reflexivity|exact Hv].
Qed.

(** X5. [LoadPod] answers a pod only if it is the pod asked for (same
    UUID, same host), sealed, with exactly one application and no
    isolator; an error it answers is always traced; and in every case
    the file system is as it was. *)
Theorem LoadPod_result (h : Host) (id : option string) (w w' : World)
    (r : Res (error + Pod)) :
  LoadPod env h id w = (r, w') →
  nodes w' = nodes w
  ∧ match r with
    | Ret (inr c) =>
        id = Some (UUID c) ∧ PodHost c = h ∧ sealed c = true
        ∧ length (Apps (Manifest c)) = 1%nat ∧ Isolators (Manifest c) = []
    | Ret (inl e) => ∃ e', e = Trace e'
    | Panic _ => True
    | OutOfFuel => True
    end.
Proof.
  unfold LoadPod. destruct id as [u|]; [|intros [= <- <-]; auto].
  set (c0 := {| UUID := u; PodHost := h; Manifest := zero_PodManifest; sealed := false |}).
  destruct (Load env {| pod := c0; world := w |}) as [rl sl] eqn:HL.
  assert (nodes (world sl) = nodes w ∧ UUID (pod sl) = u ∧ PodHost (pod sl) = h)
    as (Hn & Hu & Hh).
  { pose proof HL as H. apply Load_cases in H.
    destruct H as [(Hs & _)|[(_ & H)|[(_ & H & _)|(_ & s1 & r2 & s2 & He & Hr & H)]]].
    - discriminate Hs.
    - destruct H as [(v & H & _)|(H & _)]; apply Exists_frame in H as ->; auto.
    - apply Exists_frame in H as ->. auto.
    - apply Exists_frame in He as ->.
      apply readManifest_frame in Hr as (Hw & Hu & Hh & _). simpl in *.
      assert (nodes (world s2) = nodes w) as Hn by (rewrite Hw; reflexivity).
      destruct H as [(e & _ & _ & ->)|[(v & _ & _ & ->)|[(_ & _ & ->)|(_ & H)]]]; auto.
      destruct H as [(e & _ & _ & ->)|(_ & _ & ->)]; auto. }
  destruct rl as [[e|]|v|]; intros [= <- <-]; (split; [exact Hn|]); eauto.
  apply Load_cases in HL.
  destruct HL as [(Hs & _)|[(_ & H)|[(_ & _ & H)|(_ & s1 & r2 & s2 & _ & _ & H)]]].
  - discriminate Hs.
  - destruct H as [(v & _ & H)|(_ & H)]; discriminate H.
  - discriminate H.
  - destruct H as [(e & _ & H & _)|[(v & _ & H & _)|[(_ & H & _)|(_ & H)]]];
      try discriminate H.
    destruct H as [(e & _ & H & _)|(Hv & _ & ->)]; [discriminate H|].
    apply Load_verdict_None in Hv as [Ha Hi]. simpl in *.
    repeat split; auto. congruence.
Qed.

(** X6. A [Save] that does not answer [nil] leaves the pod as it
    was, so that it is not sealed by this call, and the error it answers
    is traced. If the manifest does not encode, no call is made;
    otherwise the one call made is the write of the manifest file. *)
Theorem Save_failure_keeps_pod (s s' : State) (r : Res (option error)) :
  Save env s = (r, s') →
  r ≠ Ret None →
  pod s' = pod s
  ∧ (∃ e, r = Ret (Some (Trace e)))
  ∧ match json_Marshal env (Manifest (pod s)) with
    | inl _ => calls (world s') = calls (world s)
    | inr manifestJSON =>
        calls (world s') =
          (calls (world s)
           ++ [CWriteFile (Path (pod s) ["manifest"]) manifestJSON perm_0400])%list
    end.
Proof.
  unfold Save, bind at 1, get_pod.
  destruct (json_Marshal env (Manifest (pod s))) as [e|data].
  - intros [= <- <-] _. eauto.
  - unfold bind, os.
    destruct (ioutil_WriteFile env _ data perm_0400 (world s)) as [r1 w1] eqn:E.
    destruct (WriteFile_Ret env _ _ _ _ _ _ E) as [err ->].
    destruct err as [e|].
    + apply WriteFile_refused in E as ->. intros [= <- <-] _. simpl. eauto.
    + intros [= <- <-] Hr. congruence.
Qed.

End StoreMore.

Section BuilderMore.

Variable env : Env.

Lemma jailConf_parameters_fixed (c : Pod) (parameters : gmap string string) :
  jailConf_parameters c = Ret parameters →
  ∃ interface ip,
    GetString (Host_Properties (PodHost c)) "jail.interface" = Some interface
    ∧ Annotations_Get (Annotations (Manifest c)) "ip-address" = Some ip
    ∧ parameters =
        annotation_parameters (Annotations (Manifest c))
          (list_to_map (fixed_parameters c interface ip)).
Proof.
  unfold jailConf_parameters, MustGetString, Res_bind.
  destruct (GetString _ "jail.interface") as [interface|]; [|discriminate].
  destruct (Annotations_Get _ "ip-address") as [ip|] eqn:Hip; [|discriminate].
  intros [= <-]. exists interface, ip. repeat split. f_equal.
  unfold fixed_parameters. simpl list_to_map.
  destruct (Annotations_Get _ "hostname") as [hostname|]; [reflexivity|].
  f_equal.
Qed.

Lemma last_override_no_reserved (key : string) (annotations : list Annotation)
    (before : option string) :
  no_reserved annotations → last_override key annotations before = before.
Proof.
  unfold no_reserved, last_override. intros H. revert before.
  induction H as [|antn rest Hp _ IH]; intros before; simpl; [reflexivity|].
  rewrite Hp. simpl. apply IH.
Qed.

(** X7. The builder answers a text exactly when the host has the
    properties [jail.interface] and [jail.namePrefix] and the pod has an
    [ip-address] annotation; in every other case it panics. *)
Theorem jailConf_succeeds_iff (c : Pod)
    (range : gmap string string → list (string * string)) :
  ((∃ text, jailConf_with env range c = Ret text)
   ↔ is_Some (GetString (Host_Properties (PodHost c)) "jail.interface")
     ∧ is_Some (Annotations_Get (Annotations (Manifest c)) "ip-address")
     ∧ is_Some (GetString (Host_Properties (PodHost c)) "jail.namePrefix"))
  ∧ ((∃ text, jailConf_with env range c = Ret text)
     ∨ ∃ v, jailConf_with env range c = Panic v).
Proof.
  unfold jailConf_with, jailConf_lines, jailConf_parameters, jailName, MustGetString,
    Res_bind.
  destruct (GetString _ "jail.interface") as [interface|];
    destruct (Annotations_Get _ "ip-address") as [ip|];
    destruct (GetString _ "jail.namePrefix") as [prefix|];
    (split; [split; [intros [text H]; try discriminate H; eauto
                    |intros (H1 & H2 & H3);
                     try (destruct H1 as [? [=]]); try (destruct H2 as [? [=]]);
                     try (destruct H3 as [? [=]]); eauto]
            |eauto]).
Qed.

(** X8. The parameter table is the fixed part overridden by the
    annotations: under every key it holds the value of the last
    annotation whose name is the reserved prefix followed by a suffix
    that maps to this key, and otherwise what the fixed part has there. *)
Theorem jailConf_parameters_lookup (c : Pod) (parameters : gmap string string) :
  jailConf_parameters c = Ret parameters →
  ∃ interface ip,
    GetString (Host_Properties (PodHost c)) "jail.interface" = Some interface
    ∧ Annotations_Get (Annotations (Manifest c)) "ip-address" = Some ip
    ∧ ∀ key,
        parameters !! key =
          last_override key (Annotations (Manifest c))
            ((list_to_map (fixed_parameters c interface ip) : gmap string string) !! key).
Proof.
  intros H. destruct (jailConf_parameters_fixed c parameters H)
    as (interface & ip & Hi & Hip & ->).
  exists interface, ip. repeat split; try assumption.
  intros key. apply annotation_parameters_lookup.
Qed.

(** X9. Without any annotation under the reserved prefix the table
    has exactly the nine fixed parameters: the four policy constants,
    the UUID, the interface, the root path, the address, and as host
    name the [hostname] annotation or else the UUID. *)
Theorem jailConf_without_reserved (c : Pod) (parameters : gmap string string) :
  no_reserved (Annotations (Manifest c)) →
  jailConf_parameters c = Ret parameters →
  size parameters = 9%nat
  ∧ parameters !! "devfs_ruleset" = Some "4"
  ∧ parameters !! "exec.clean" = Some "true"
  ∧ parameters !! "persist" = Some "true"
  ∧ parameters !! "mount.devfs" = Some "true"
  ∧ parameters !! "host.hostuuid" = Some (UUID c)
  ∧ parameters !! "path" = Some (Path c ["rootfs"])
  ∧ parameters !! "interface"
    = GetString (Host_Properties (PodHost c)) "jail.interface"
  ∧ parameters !! "ip4.addr"
    = Annotations_Get (Annotations (Manifest c)) "ip-address"
  ∧ parameters !! "host.hostname"
    = Some (default (UUID c) (Annotations_Get (Annotations (Manifest c)) "hostname")).
Proof.
  intros Hn H. destruct (jailConf_parameters_fixed c parameters H)
    as (interface & ip & Hi & Hip & ->).
  assert (annotation_parameters (Annotations (Manifest c))
            (list_to_map (fixed_parameters c interface ip))
          = list_to_map (fixed_parameters c interface ip)) as ->.
  { apply map_eq. intros key.
    rewrite annotation_parameters_lookup. apply last_override_no_reserved, Hn. }
  rewrite Hi, Hip. unfold fixed_parameters. simpl list_to_map.
  split.
  { rewrite !map_size_insert_None; [rewrite map_size_empty; reflexivity|..];
      first [apply lookup_empty | rewrite !lookup_insert_ne by discriminate;
                                  apply lookup_empty ]. }
  repeat split;
    rewrite ?lookup_insert_ne by discriminate; apply lookup_insert_eq.
Qed.

Lemma Replace1_no_old (s : string) (old new : ascii) :
  old ≠ new → ¬ In old (list_ascii_of_string (strings_Replace1 s old new)).
Proof.
  intros Hne. induction s as [|a s IH]; simpl; [tauto|].
  intros [H|H]; [|exact (IH H)].
  destruct (Ascii.eqb_spec a old); congruence.
Qed.

(** X10. A parameter name made from an annotation never has a hyphen:
    every hyphen of the suffix has become an underscore, and nothing
    else has changed (same length, other bytes as they were). *)
Theorem conf_key_no_hyphen (name : ACName) :
  ¬ In "-"%char (list_ascii_of_string (conf_key name))
  ∧ String.length (conf_key name)
    = String.length (string_from (String.length conf_prefix) name)
  ∧ ∀ i a, String.get i (string_from (String.length conf_prefix) name) = Some a →
           String.get i (conf_key name) = Some (if Ascii.eqb a "-" then "_"%char else a).
Proof.
  unfold conf_key. generalize (string_from (String.length conf_prefix) name). intros s.
  split; [apply Replace1_no_old; discriminate|]. split.
  - induction s as [|a s IH]; simpl; [reflexivity|]. rewrite IH. reflexivity.
  - induction s as [|a s IH]; intros i b; simpl; [discriminate|].
    destruct i as [|i]; [intros [= ->]; reflexivity|apply IH].
Qed.

End BuilderMore.

Section ResolverMore.

Variable env : Env.

(** X11. [prepJail] refuses before touching anything a pod that does
    not have exactly one application, and a pod whose image cannot be
    found (the lookup error is answered traced): in both cases no call
    is made and the state is as it was. *)
Theorem prepJail_refuses_early (s : State) :
  (length (Apps (Manifest (pod s))) ≠ 1%nat →
   prepJail env s =
     (Ret (Some (Errorf "FIXME: Only one-app pods are supported!" [])), s))
  ∧ (∀ app err,
       Apps (Manifest (pod s)) = [app] →
       GetImageByHash env (rta_Image app) = inl err →
       prepJail env s = (Ret (Some (Trace err)), s)).
Proof.
  destruct s as [c w]. split.
  - simpl. intros Hl. unfold prepJail, bind, get_pod. simpl.
    destruct (Nat.eqb_spec (length (Apps (Manifest c))) 1); [contradiction|reflexivity].
  - simpl. intros app err Ha Hi. unfold prepJail, bind, get_pod, os. simpl.
    rewrite Ha. simpl. rewrite Hi. reflexivity.
Qed.

Lemma mount_one_unknown_mount_point (c : Pod) (imgApp : App) (mnt : Mount) (w : World) :
  is_Some (find_volume 0 (Volumes (Manifest c)) (mnt_Volume mnt)) →
  find_mountPoint (app_MountPoints imgApp) (mnt_MountPoint mnt) = None →
  mount_one env c imgApp mnt w =
    (Ret (inl (Errorf "No mount point found: %v" [VName (mnt_MountPoint mnt)])), w).
Proof.
  intros [[volNo vol] Hv] Hm. unfold mount_one. rewrite Hv, Hm. reflexivity.
Qed.

(** X12. On a pod with one application whose image resolves and
    declares an application template, once [resolv.conf] has been
    copied and the bindings before it have gone through, a binding whose
    volume exists but whose mount point the image does not declare makes
    [prepJail] answer the error "No mount point found". That binding
    causes no call, not even the creation of the directory of an empty
    volume; the pod is unchanged. *)
Theorem unknown_mount_point_fails (c : Pod) (app : RuntimeApp) (img : ImageManifest)
    (imgApp : App) (bb : string) (w w1 w2 w3 : World)
    (pre post : list Mount) (mnt : Mount)
    (fulfilled : gmap string bool) (fstab : list string) :
  Apps (Manifest c) = [app] →
  GetImageByHash env (rta_Image app) = inr img →
  img_App img = Some imgApp →
  ioutil_ReadFile env "/etc/resolv.conf" w = (Ret (inr bb), w1) →
  ioutil_WriteFile env (Path c ["rootfs/etc/resolv.conf"]) bb perm_0644 w1
    = (Ret None, w2) →
  rta_Mounts app = (pre ++ mnt :: post)%list →
  mounts_loop env c imgApp pre ∅ (compat_lines c img) w2
    = (Ret (inr (fulfilled, fstab)), w3) →
  is_Some (find_volume 0 (Volumes (Manifest c)) (mnt_Volume mnt)) →
  find_mountPoint (app_MountPoints imgApp) (mnt_MountPoint mnt) = None →
  prepJail env {| pod := c; world := w |} =
    (Ret (Some (Errorf "No mount point found: %v" [VName (mnt_MountPoint mnt)])),
     {| pod := c; world := w3 |}).
Proof.
  intros Ha Hi Ht Hr Hw Hm Hl Hv Hp.
  apply (prepJail_resolver_error env c app w w3 _ Ha).
  rewrite (apps_loop_template env c app img imgApp bb w w1 w2 Hi Ht Hr Hw), Hm.
  rewrite mounts_loop_app, Hl. simpl. unfold bind.
  rewrite (mount_one_unknown_mount_point c imgApp mnt w3 Hv Hp). reflexivity.
Qed.

Lemma find_volume_In (i : nat) (vols : list Volume) (name : ACName) (n : nat)
    (vol : Volume) :
  find_volume i vols name = Some (n, vol) → In vol vols.
Proof.
  revert i. induction vols as [|cvol rest IH]; intros i; simpl; [discriminate|].
  destruct (String.eqb (vol_Name cvol) name).
  - intros [= _ <-]. auto.
  - intros H. right. eapply IH; exact H.
Qed.

(** X13. For a pod none of whose volumes is of kind [empty], the loop
    over the bindings makes no call at all, whatever it answers: the
    source path of a volume is put into the table as it is, and is
    neither checked nor created. *)
Theorem mounts_loop_host_volumes (c : Pod) (imgApp : App) (mounts : list Mount)
    (fulfilled : gmap string bool) (fstab : list string) (w w' : World)
    (r : Res (error + gmap string bool * list string)) :
  (∀ vol, In vol (Volumes (Manifest c)) → String.eqb (vol_Kind vol) "empty" = false) →
  mounts_loop env c imgApp mounts fulfilled fstab w = (r, w') →
  w' = w
  ∧ ∀ fulfilled' fstab',
      r = Ret (inr (fulfilled', fstab')) →
      ∃ lines,
        fstab' = (fstab ++ lines)%list
        ∧ Forall2
            (fun mnt line =>
               ∃ volNo vol mntPoint,
                 find_volume 0 (Volumes (Manifest c)) (mnt_Volume mnt) = Some (volNo, vol)
                 ∧ find_mountPoint (app_MountPoints imgApp) (mnt_MountPoint mnt)
                   = Some mntPoint
                 ∧ line = fstab_line (vol_Source vol)
                            (Path c ["rootfs"; mntp_Path mntPoint])
                            (mount_opts vol mntPoint))
            mounts lines.
Proof.
  intros Hk. revert fulfilled fstab w.
  induction mounts as [|mnt rest IH]; intros fulfilled fstab w; simpl.
  - unfold ret. intros [= <- <-]. split; [reflexivity|].
    intros f' t' [= <- <-]. exists []. rewrite app_nil_r. split; constructor.
  - unfold bind at 1, mount_one.
    destruct (find_volume 0 _ _) as [[volNo vol]|] eqn:Hv.
    2: { intros [= <- <-]. split; [reflexivity|]. intros ? ? [=]. }
    destruct (find_mountPoint _ _) as [mntPoint|] eqn:Hp.
    2: { intros [= <- <-]. split; [reflexivity|]. intros ? ? [=]. }
    rewrite (Hk vol (find_volume_In _ _ _ _ _ Hv)). unfold bind, ret.
    intros H. destruct (IH _ _ _ H) as [-> Hl]. split; [reflexivity|].
    intros f' t' Hr. destruct (Hl f' t' Hr) as [lines [-> HF]].
    eexists (_ :: lines). rewrite <- app_assoc. split; [reflexivity|].
    constructor; [|exact HF]. eauto 6.
Qed.

End ResolverMore.

Section ResolverEffects.

Variable env : Env.

Lemma mode_bits_replaced (old mode : Z) :
  Z.land (Z.lor (Z.land old (Z.lnot mask_07777))
                (Z.land (Z.land mode mask_07777) mask_07777)) mask_07777
  = Z.land mode mask_07777.
Proof.
  rewrite Z.land_lor_distr_l, <- !Z.land_assoc, Z.land_diag.
  rewrite (Z.land_comm (Z.lnot mask_07777)), Z.land_lnot_diag, Z.land_0_r.
  apply Z.lor_0_l.
Qed.

(** X14. The directory of an empty volume takes the owner and the
    permission bits of the mount point it will cover. When no call is
    refused and no regular file is in the way, the branch for an empty
    volume answers the allocated path [volumes/<index>], which is then a
    directory; if the mount point exists in the pod's root file system,
    the directory has its user, its group and its permission bits (mode
    and 07777); if it does not, the directory is left as it was or as
    created with mode 0700. *)
Theorem empty_volume_ownership (c : Pod) (volNo : nat) (podPath : string) (w : World) :
  no_faults env →
  let hostPath := Path c ["volumes"; strconv_Itoa volNo] in
  podPath ≠ hostPath →
  (∀ n, nodes w !! hostPath = Some n → n_dir n = true) →
  ∃ w' n,
    empty_volume env c volNo podPath w = (Ret (inr hostPath), w')
    ∧ nodes w' !! hostPath = Some n
    ∧ n_dir n = true
    ∧ match nodes w !! podPath with
      | Some p =>
          st_Uid (n_stat n) = st_Uid (n_stat p)
          ∧ st_Gid (n_stat n) = st_Gid (n_stat p)
          ∧ Z.land (st_Mode (n_stat n)) mask_07777
            = Z.land (st_Mode (n_stat p)) mask_07777
      | None => n = default (created env true "" perm_0700) (nodes w !! hostPath)
      end.
Proof.
  intros Hq hostPath Hne Hd. unfold empty_volume. fold hostPath.
  destruct (MkdirAll_ok env Hq hostPath perm_0700 w Hd) as [w1 [Hm [[n1 [Hn1 Hd1]] Hk1]]].
  assert (n1 = default (created env true "" perm_0700) (nodes w !! hostPath)) as Hn1'.
  { revert Hm Hn1. unfold os_MkdirAll, syscall_, bind, ret.
    rewrite (syscall_ok env _ _ _ (Hq _ _)).
    destruct (nodes w !! hostPath) as [n0|] eqn:E; simpl.
    - rewrite (Hd n0 eq_refl). simpl. intros [= <-]. simpl. congruence.
    - intros [= <-]. simpl. rewrite lookup_insert_eq. congruence. }
  unfold bind at 1. rewrite Hm. unfold bind at 1, unix_Stat.
  rewrite (syscall_ok env _ _ _ (Hq _ _)).
  rewrite (Hk1 podPath Hne).
  destruct (nodes w !! podPath) as [p|]; simpl.
  - unfold bind at 1, unix_Chmod.
    erewrite restat_ok with (f := fun n => {| st_Mode := _; st_Uid := _; st_Gid := _ |})
      by (try exact Hq; simpl; exact Hn1).
    unfold bind at 1, unix_Chown.
    erewrite restat_ok with (f := fun n => {| st_Mode := _; st_Uid := _; st_Gid := _ |})
      by (try exact Hq; simpl; apply lookup_insert_eq).
    eexists. eexists. split; [reflexivity|]. simpl.
    split; [apply lookup_insert_eq|]. split; [exact Hd1|].
    simpl. repeat split. apply mode_bits_replaced.
  - eexists. exists n1. split; [reflexivity|]. simpl.
    split; [exact Hn1|]. split; [exact Hd1|exact Hn1'].
Qed.

Lemma Annotations_Set_absent (a : list Annotation) (name : ACName) (value : string) :
  Annotations_Get a name = None →
  Annotations_Set a name value
  = (a ++ [ {| antn_Name := name; antn_Value := value |} ])%list.
Proof.
  induction a as [|anno rest IH]; simpl; [reflexivity|].
  destruct (String.eqb (antn_Name anno) name); [discriminate|].
  intros H. rewrite (IH H). reflexivity.
Qed.

Lemma last_override_last (key : string) (a : list Annotation) (antn : Annotation)
    (before : option string) :
  String.prefix conf_prefix (antn_Name antn) = true →
  conf_key (antn_Name antn) = key →
  last_override key (a ++ [antn]) before = Some (antn_Value antn).
Proof.
  intros Hp Hk. unfold last_override. rewrite fold_left_app. simpl.
  rewrite Hp, Hk, String.eqb_refl. reflexivity.
Qed.

(** X15. The resolver hands the mount table to the builder: when the
    table has lines, its file has been written and the pod had no
    annotation [jetpack/jail.conf/mount.fstab], [prepJail] goes on with
    the pod in which that annotation, holding the path of the table, has
    been added after the others, and the builder then renders
    [mount.fstab] as that path. *)
Theorem prepJail_registers_fstab (c : Pod) (app : RuntimeApp) (w w1 w2 : World)
    (fstab : list string) :
  Apps (Manifest c) = [app] →
  apps_loop env c [app] [] w = (Ret (inr fstab), w1) →
  fstab ≠ [] →
  ioutil_WriteFile env (Path c ["fstab"]) (String.concat "" fstab) perm_0600 w1
    = (Ret None, w2) →
  Annotations_Get (Annotations (Manifest c)) fstab_annotation = None →
  prepJail env {| pod := c; world := w |}
    = write_conf env {| pod := with_fstab c; world := w2 |}
  ∧ n_data <$> nodes w2 !! Path c ["fstab"] = Some (String.concat "" fstab)
  ∧ Annotations_Get (Annotations (Manifest (with_fstab c))) fstab_annotation
    = Some (Path c ["fstab"])
  ∧ ∀ parameters,
      jailConf_parameters (with_fstab c) = Ret parameters →
      parameters !! "mount.fstab" = Some (Path c ["fstab"]).
Proof.
  intros Ha Hl Hne Hw Hg.
  assert (Nat.ltb 0 (length fstab) = true) as Hlen
    by (destruct fstab; [congruence|reflexivity]).
  split; [|split; [|split]].
  - unfold prepJail, bind at 1, get_pod. simpl. rewrite Ha. simpl.
    unfold bind at 1. rewrite (os_run _ _ _ _ _ Hl), Hlen.
    unfold bind at 1. rewrite (os_run _ _ _ _ _ Hw).
    unfold bind at 1, put_pod. simpl.
    rewrite (Annotations_Set_absent _ _ _ Hg). reflexivity.
  - apply WriteFile_inv in Hw as ->. simpl. rewrite lookup_insert_eq. unfold written.
    destruct (nodes w1 !! Path c ["fstab"]); reflexivity.
  - unfold with_fstab. simpl.
    generalize (Path c ["fstab"]). intros path. revert Hg.
    induction (Annotations (Manifest c)) as [|anno rest IH]; simpl; [reflexivity|].
    destruct (String.eqb (antn_Name anno) fstab_annotation); [discriminate|]. exact IH.
  - intros parameters Hp.
    destruct (jailConf_parameters_fixed (with_fstab c) parameters Hp)
      as (interface & ip & _ & _ & ->).
    rewrite annotation_parameters_lookup. unfold with_fstab. simpl.
    apply last_override_last; reflexivity.
Qed.

Lemma write_conf_nil (s s' : State) :
  write_conf env s = (Ret None, s') →
  ∃ text,
    jailConf env (pod s) = Ret text
    ∧ s' = {| pod := pod s;
              world :=
                {| nodes := <[Path (pod s) ["jail.conf"] :=
                                written env (nodes (world s))
                                  (Path (pod s) ["jail.conf"]) text perm_0400]>
                              (nodes (world s));
                   calls := (calls (world s)
                             ++ [CWriteFile (Path (pod s) ["jail.conf"]) text
                                   perm_0400])%list |} |}.
Proof.
  unfold write_conf, bind at 1, get_pod. unfold bind at 1, lift.
  destruct (jailConf env (pod s)) as [text|v|]; try (intros [=]; fail).
  unfold bind, os.
  destruct (ioutil_WriteFile env _ text perm_0400 (world s)) as [r w1] eqn:E.
  destruct r as [[e|]|v|]; try (intros [=]; fail).
  apply WriteFile_inv in E as ->. intros [= <-]. eauto.
Qed.

Lemma prepJail_nil (s s' : State) :
  prepJail env s = (Ret None, s') →
  ∃ s1, write_conf env s1 = (Ret None, s')
        ∧ UUID (pod s1) = UUID (pod s) ∧ PodHost (pod s1) = PodHost (pod s).
Proof.
  unfold prepJail, bind at 1, get_pod.
  destruct (negb _); [intros [=]|].
  unfold bind at 1.
  destruct (os (apps_loop env (pod s) _ []) s) as [[[e|fstab]|v|] s1] eqn:E;
    try (intros [=]; fail).
  apply os_pod in E.
  destruct (Nat.ltb 0 _).
  - unfold bind at 1.
    destruct (os (ioutil_WriteFile env _ _ perm_0600) s1) as [[[e|]|v|] s2] eqn:E2;
      try (intros [=]; fail).
    unfold bind at 1, put_pod. intros H. eexists. split; [exact H|]. auto.
  - intros H. exists s1. rewrite E. auto.
Qed.

(** X16. Write, then activate: [runJail] issues the [jail] command
    only after [prepJail] has answered [nil], and then the call just
    before the command is the write of [jail.conf], with mode 0400 and
    the text the builder gives for the pod as it then is; the command
    names that file, the operation and the jail name. When [prepJail]
    answers an error, [runJail] answers the same error, untraced, and
    issues no command. *)
Theorem runJail_writes_then_runs (op : string) (s : State) :
  (∀ e s1, prepJail env s = (Ret (Some e), s1) →
           runJail env op s = (Ret (Some e), s1))
  ∧ (∀ s1, prepJail env s = (Ret None, s1) →
       ∃ text name log,
         jailConf env (pod s1) = Ret text
         ∧ jailName (pod s1) = Ret name
         ∧ calls (world s1)
           = (log ++ [CWriteFile (Path (pod s1) ["jail.conf"]) text perm_0400])%list
         ∧ n_data <$> nodes (world s1) !! Path (pod s1) ["jail.conf"] = Some text
         ∧ runJail env op s
           = (Ret (fault env (calls (world s1)) (jail_command (pod s1) op name)),
              {| pod := pod s1;
                 world := record (jail_command (pod s1) op name) (world s1) |})).
Proof.
  split.
  - intros e s1 H. unfold runJail, bind. rewrite H. reflexivity.
  - intros s1 H.
    destruct (prepJail_nil s s1 H) as (s0 & Hw & _).
    destruct (write_conf_nil s0 s1 Hw) as (text & Hc & Hs1).
    assert (∃ name, jailName (pod s0) = Ret name) as [name Hn].
    { revert Hc. unfold jailConf, jailConf_with, Res_bind.
      destruct (jailConf_lines env map_to_list (pod s0)); try discriminate.
      destruct (jailName (pod s0)); try discriminate. eauto. }
    exists text, name, (calls (world s0)).
    unfold runJail, bind at 1. rewrite H. subst s1. simpl.
    split; [exact Hc|]. split; [exact Hn|]. split; [reflexivity|].
    split.
    { rewrite lookup_insert_eq. unfold written.
      destruct (nodes (world s0) !! _); reflexivity. }
    unfold bind at 1, get_pod. unfold bind at 1, lift. simpl. rewrite Hn.
    unfold os, external, syscall_, bind, ret, syscall, jail_command, record. simpl.
    destruct (fault env _ _); reflexivity.
Qed.

End ResolverEffects.

Import Scenario.

Lemma Save_then_Load_panics_witness :
  ∃ s', Save (env_codec one_app) {| pod := pod_with one_app; world := empty_world |}
        = (Ret None, s')
        ∧ Load (env_codec one_app) s'
          = (Panic (PStr "tried to load an already sealed pod"), s').
Proof.
  apply (Save_then_Load_panics (env_codec one_app) (pod_with one_app) empty_world encoding).
  - reflexivity.
  - reflexivity.
  - intros n. vm_compute. discriminate.
Defined.

Lemma Load_reads_only_witness :
  let s := {| pod := fresh_pod; world := saved_world no_app |} in
  let s' := snd (Load (env_codec no_app) s) in
  nodes (world s') = nodes (world s)
  ∧ calls (world s') =
      (calls (world s) ++ [CStat (pod_dir ++ "/manifest");
                           CReadFile (pod_dir ++ "/manifest")])%list.
Proof.
  intros s s'.
  destruct (Load_reads_only (env_codec no_app) s s' (fst (Load (env_codec no_app) s)))
    as (Hn & _ & _ & _).
  - apply injective_projections; reflexivity.
  - split; [exact Hn|]. vm_compute. reflexivity.
Defined.


Lemma Load_failure_manifest_witness :
  let s := {| pod := fresh_pod; world := saved_world no_app |} in
  let s' := snd (Load (env_codec no_app) s) in
  fst (Load (env_codec no_app) s) = Ret (Some (Errorf "No application set?" []))
  ∧ sealed (pod s') = false
  ∧ Manifest (pod s') = no_app.
Proof.
  intros s s'. split; [vm_compute; reflexivity|].
  destruct (Load_failure_manifest (env_codec no_app) s s'
              (Errorf "No application set?" [])) as (Hs & _).
  - reflexivity.
  - apply injective_projections; vm_compute; reflexivity.
  - split; [exact Hs|]. vm_compute. reflexivity.
Defined.

Lemma LoadPod_result_witness :
  let r := LoadPod (env_codec one_app) host (Some uuid) (saved_world one_app) in
  nodes (snd r) = nodes (saved_world one_app)
  ∧ fst r = Ret (inr (pod_with one_app)).
Proof.
  intros r.
  destruct (LoadPod_result (env_codec one_app) host (Some uuid) (saved_world one_app)
              (snd r) (fst r)) as (Hn & _).
  - apply injective_projections; reflexivity.
  - split; [exact Hn|]. vm_compute. reflexivity.
Defined.

Lemma Save_failure_keeps_pod_witness :
  let s := {| pod := fresh_pod; world := empty_world |} in
  let s' := snd (Save env_read_only s) in
  pod s' = pod s
  ∧ ∃ e, fst (Save env_read_only s) = Ret (Some (Trace e)).
Proof.
  intros s s'.
  destruct (Save_failure_keeps_pod env_read_only s s' (fst (Save env_read_only s)))
    as (Hp & He & _).
  - apply injective_projections; reflexivity.
  - vm_compute. discriminate.
  - split; [exact Hp|exact He].
Defined.

Lemma jailConf_parameters_lookup_witness :
  ∃ parameters,
    jailConf_parameters (pod_with (annotated [ip_address; raw_sockets])) = Ret parameters
    ∧ parameters !! "allow.raw_sockets" = Some "true"
    ∧ parameters !! "persist" = Some "true".
Proof.
  eexists. split; [reflexivity|].
  destruct (jailConf_parameters_lookup (pod_with (annotated [ip_address; raw_sockets]))
              _ eq_refl) as (interface & ip & _ & _ & H).
  split; rewrite H; vm_compute; reflexivity.
Defined.

Lemma jailConf_without_reserved_witness :
  ∃ parameters,
    jailConf_parameters (pod_with (annotated [hostname_annotation; ip_address]))
    = Ret parameters
    ∧ size parameters = 9%nat
    ∧ parameters !! "host.hostname" = Some "web1".
Proof.
  eexists. split; [reflexivity|].
  edestruct (jailConf_without_reserved
               (pod_with (annotated [hostname_annotation; ip_address])))
    as (Hs & _ & _ & _ & _ & _ & _ & _ & _ & Hh).
  - repeat constructor.
  - reflexivity.
  - split; [exact Hs|exact Hh].
Defined.

Lemma prepJail_refuses_early_witness :
  prepJail env_linux {| pod := pod_with no_app; world := host_world |}
  = (Ret (Some (Errorf "FIXME: Only one-app pods are supported!" [])),
     {| pod := pod_with no_app; world := host_world |}).
Proof.
  apply (proj1 (prepJail_refuses_early env_linux
                  {| pod := pod_with no_app; world := host_world |})).
  discriminate.
Defined.

Lemma unknown_mount_point_fails_witness :
  fst (prepJail env_freebsd {| pod := pod_unknown_mount_point; world := host_world |})
  = Ret (Some (Errorf "No mount point found: %v" [VName "logs"])).
Proof.
  erewrite unknown_mount_point_fails
    with (app := runtime_app [bind_to "data" "logs"]) (img := freebsd_image)
         (imgApp := template [mp_data; mp_config]) (bb := resolv_conf)
         (pre := @nil Mount) (post := @nil Mount) (mnt := bind_to "data" "logs").
  - reflexivity.
  - reflexivity.
  - reflexivity.
  - reflexivity.
  - vm_compute; reflexivity.
  - vm_compute; reflexivity.
  - reflexivity.
  - reflexivity.
  - eexists. reflexivity.
  - reflexivity.
Defined.

Lemma mounts_loop_host_volumes_witness :
  snd (mounts_loop env_freebsd pod_host_volume (template [mp_data; mp_config])
         [bind_to "config" "config"] ∅ [] host_world)
  = host_world.
Proof.
  apply (mounts_loop_host_volumes env_freebsd pod_host_volume
           (template [mp_data; mp_config]) [bind_to "config" "config"] ∅ [] host_world _
           (fst (mounts_loop env_freebsd pod_host_volume (template [mp_data; mp_config])
                   [bind_to "config" "config"] ∅ [] host_world))).
  - intros vol [<-|[]]. reflexivity.
  - apply injective_projections; reflexivity.
Defined.

Lemma empty_volume_ownership_witness :
  ∃ w' n,
    empty_volume env_linux pod_bound 0 (pod_dir ++ "/rootfs/data") host_world
    = (Ret (inr (pod_dir ++ "/volumes/0")), w')
    ∧ nodes w' !! (pod_dir ++ "/volumes/0") = Some n
    ∧ n_dir n = true
    ∧ st_Uid (n_stat n) = 80
    ∧ st_Gid (n_stat n) = 80
    ∧ Z.land (st_Mode (n_stat n)) mask_07777 = 488.
Proof.
  destruct (empty_volume_ownership env_linux pod_bound 0 (pod_dir ++ "/rootfs/data")
              host_world) as (w' & n & He & Hn & Hd & Hm).
  - intros h c. reflexivity.
  - intros H. vm_compute in H. discriminate H.
  - intros n. vm_compute. discriminate.
  - exists w', n. split; [exact He|]. split; [exact Hn|]. split; [exact Hd|].
    change (nodes host_world !! (pod_dir ++ "/rootfs/data"))
      with (Some (directory 488 80 80)) in Hm.
    destruct Hm as (Hu & Hg & Hmode). repeat split; assumption.
Defined.

Lemma prepJail_registers_fstab_witness :
  Annotations_Get (Annotations (Manifest (with_fstab pod_bound))) fstab_annotation
  = Some (pod_dir ++ "/fstab")
  ∧ ∀ parameters,
      jailConf_parameters (with_fstab pod_bound) = Ret parameters →
      parameters !! "mount.fstab" = Some (pod_dir ++ "/fstab").
Proof.
  edestruct prepJail_registers_fstab
    with (env := env_linux) (c := pod_bound) (app := app_bound) (w := host_world)
    as (_ & _ & H1 & H2).
  - reflexivity.
  - vm_compute; reflexivity.
  - discriminate.
  - vm_compute; reflexivity.
  - reflexivity.
  - split; [exact H1|exact H2].
Defined.

Lemma runJail_writes_then_runs_witness :
  let s := {| pod := pod_bare; world := host_world |} in
  fst (runJail env_teardown "-c" s) = Ret None
  ∧ ∃ log text,
      calls (world (snd (runJail env_teardown "-c" s)))
      = (log ++ [ CWriteFile (pod_dir ++ "/jail.conf")%string text perm_0400;
                  CRun ["jail"; "-f"; (pod_dir ++ "/jail.conf")%string; "-q"; "-c";
                        ("jetpack:" ++ uuid)%string] ])%list.
Proof.
  intros s.
  destruct (proj2 (runJail_writes_then_runs env_teardown "-c" s)
              (snd (prepJail env_teardown s)))
    as (text & name & log & _ & Hn & Hc & _ & HR).
  - apply injective_projections; reflexivity.
  - rewrite HR. split; [reflexivity|]. exists log, text. simpl.
    rewrite Hc, <- app_assoc. simpl.
    vm_compute in Hn. injection Hn as <-. reflexivity.
Defined.
